(** * Video Speed Controller: the atempo chain builder of [VSC.py]

    [atempo_chain(sf)] splits a playback speed factor into a chain of
    FFmpeg [atempo] filters, each of which only accepts a multiplier in
    the band 0.5 .. 2.0:

<<
    def atempo_chain(sf):
        tempos = []
        while sf > 2.0:
            tempos.append("atempo=2.0")
            sf /= 2.0
        while sf < 0.5:
            tempos.append("atempo=0.5")
            sf *= 2.0
        tempos.append(f"atempo={sf}")
        return ",".join(tempos)
>>

    Numbers.  The function uses its argument through two literals, two
    comparisons, a division and a multiplication; these six operations
    form the interface [PyFloat] below and the loops are written once,
    over any instance of it.  The specification speaks of positive real
    speed factors, and its properties are settled over the instance
    [exact]: rationals in canonical form ([Qc]), where two equal
    multipliers are equal terms, as two equal Python floats are.  The
    instance [binary64] is the IEEE 754 double arithmetic that Python
    runs.  On every positive finite double the two instances take the
    same branches and the float operations of the loops are exact
    ([tempo_chain_binary64]), so a run on doubles is a run on their
    rational values.

    Partiality.  The loops are [while] loops and do not terminate on every
    input (a speed factor [sf <= 0] doubles for ever), so they are
    written with a fuel counter that bounds the number of iterations and
    return [None] when it runs out.

    Text.  How Python writes a float ([f"atempo={sf}"]) belongs to the
    language runtime; it is the parameter [float_str] of [atempo_chain].

    Objects.  [tempos] is a Python list, an object that [append] changes
    in place.  To settle what a call changes, the body is also run on a
    heap of list objects ([atempo_chain_heap]).

    Script.  Around the function, [VSC.py] picks the speed factor from
    two widgets, tests it, names the output file and builds the FFmpeg
    command; module [Script] models these computations. *)

From Stdlib Require Import ZArith QArith Qpower Qcanon Qcabs SpecFloat.
From Stdlib Require Import List String Ascii DecimalString Lia Lqa.
Import ListNotations.

(** ** The float operations the function uses *)

Class PyFloat (F : Type) : Type := {
  two : F;                    (* the literal [2.0] *)
  half : F;                   (* the literal [0.5] *)
  gtb : F -> F -> bool;       (* [x > y] *)
  ltb : F -> F -> bool;       (* [x < y] *)
  div : F -> F -> F;          (* [x / y] *)
  mul : F -> F -> F           (* [x * y] *)
}.

Declare Scope pyfloat_scope.
Delimit Scope pyfloat_scope with py.
Notation "2.0" := two : pyfloat_scope.
Notation "0.5" := half : pyfloat_scope.
Infix ">" := gtb : pyfloat_scope.
Infix "<" := ltb : pyfloat_scope.
Infix "/" := div : pyfloat_scope.
Infix "*" := mul : pyfloat_scope.

(** Exact arithmetic. *)

Module Lit.
Definition two : Qc := Q2Qc (2 # 1).
Definition half : Qc := Q2Qc (1 # 2).
Definition tolerance : Qc := Q2Qc (1 # 1000000).
End Lit.

Notation "2.0" := Lit.two : Qc_scope.
Notation "0.5" := Lit.half : Qc_scope.
Notation "1e-6" := Lit.tolerance : Qc_scope.

#[export] Instance exact : PyFloat Qc := {
  two := Lit.two;
  half := Lit.half;
  gtb x y := if Qclt_le_dec y x then true else false;
  ltb x y := if Qclt_le_dec x y then true else false;
  div := Qcdiv;
  mul := Qcmult
}.

(** IEEE 754 double precision: 53 bits of mantissa, exponents up to 1024,
    round to nearest even, as specified by [SpecFloat]. *)

Module Binary64.
Definition prec : Z := 53.
Definition emax : Z := 1024.

(** The double nearest to the rational [n / d]. *)
Definition of_ratio (n : Z) (d : positive) : spec_float :=
  SFdiv prec emax (binary_normalize prec emax n 0 false)
                  (binary_normalize prec emax (Z.pos d) 0 false).

Definition two : spec_float := S754_finite false 4503599627370496 (-51).
Definition half : spec_float := S754_finite false 4503599627370496 (-53).

(** The rational [m * 2^e] of a positive finite double. *)
Definition mag (m : positive) (e : Z) : Qc :=
  Q2Qc (inject_Z (Z.pos m) * 2 ^ e).

(** [represents x q]: [x] is a positive finite double in canonical form
    and [q] is its value. *)
Definition represents (x : spec_float) (q : Qc) : Prop :=
  exists m e,
    x = S754_finite false m e /\ bounded prec emax m e = true /\ q = mag m e.

(** Half the distance from 1 to the next double, [2^-53]: the largest
    relative error of one rounded operation. *)
Definition unit_roundoff : Qc := Q2Qc (1 # 9007199254740992).

(** The record the rounding of [SpecFloat] shifts: the mantissa [m] and
    no bit shifted out yet. *)
Definition exact_record (m : positive) : shr_record :=
  {| shr_m := Z.pos m; shr_r := false; shr_s := false |}.
End Binary64.

#[export] Instance binary64 : PyFloat spec_float := {
  two := Binary64.two;
  half := Binary64.half;
  gtb x y := SFltb y x;
  ltb x y := SFltb x y;
  div := SFdiv Binary64.prec Binary64.emax;
  mul := SFmul Binary64.prec Binary64.emax
}.

(** ** The two loops and the final append, for any kind of stage

    [T] is what a stage is recorded as.  The source records strings; the
    specification reads the same chain as a sequence of multipliers.  Both
    are instances of the one loop skeleton below: [stage_two] is what the
    first loop appends, [stage_half] what the second loop appends and
    [stage_rest sf] what is appended after the loops. *)

Section Builder.
Context {F : Type} `{PyFloat F} {T : Type}.
Variables (stage_two stage_half : T) (stage_rest : F -> T).

Local Open Scope pyfloat_scope.

(** [while sf > 2.0: tempos.append(..2.0); sf /= 2.0] *)
Fixpoint speed_up (fuel : nat) (tempos : list T) (sf : F)
  : option (list T * F) :=
  if sf > 2.0 then
    match fuel with
    | O => None
    | S fuel' => speed_up fuel' (tempos ++ [stage_two]) (sf / 2.0)
    end
  else Some (tempos, sf).

(** [while sf < 0.5: tempos.append(..0.5); sf *= 2.0] *)
Fixpoint slow_down (fuel : nat) (tempos : list T) (sf : F)
  : option (list T * F) :=
  if sf < 0.5 then
    match fuel with
    | O => None
    | S fuel' => slow_down fuel' (tempos ++ [stage_half]) (sf * 2.0)
    end
  else Some (tempos, sf).

(** The body of [atempo_chain] up to the [return]: the list [tempos]
    after the last append.  Each loop may run [fuel] iterations. *)
Definition build (fuel : nat) (sf : F) : option (list T) :=
  match speed_up fuel [] sf with
  | None => None
  | Some (tempos, sf) =>
      match slow_down fuel tempos sf with
      | None => None
      | Some (tempos, sf) => Some (tempos ++ [stage_rest sf])
      end
  end.
End Builder.

(** ** The function of the source *)

Section Source.
Context {F : Type} `{PyFloat F}.

(** Python's conversion of a float to text, as the f-string
    [f"atempo={sf}"] applies it; it belongs to the language runtime. *)
Variable float_str : F -> string.

(** One stage of the filter graph: [atempo=<value>]. *)
Definition stage_token (m : F) : string := "atempo=" ++ float_str m.

Definition atempo_chain (fuel : nat) (sf : F) : option string :=
  option_map (String.concat ",")
    (build "atempo=2.0"%string "atempo=0.5"%string stage_token fuel sf).

(** [returns sf out]: the call [atempo_chain(sf)] returns [out]. *)
Definition returns (sf : F) (out : string) : Prop :=
  exists fuel, atempo_chain fuel sf = Some out.
End Source.

(** ** The chain as a sequence of stage multipliers *)

Definition tempo_chain {F : Type} `{PyFloat F} (fuel : nat) (sf : F)
  : option (list F) :=
  build two half (fun sf => sf) fuel sf.

(** [chain_of sf chain]: [chain] is the tempo chain built for [sf]. *)
Definition chain_of {F : Type} `{PyFloat F} (sf : F) (chain : list F) : Prop :=
  exists fuel, tempo_chain fuel sf = Some chain.

(** [runs_in loop k r]: the loop stops with [r] after exactly [k]
    iterations: [k] units of fuel are enough and fewer are not. *)
Definition runs_in {A : Type} (loop : nat -> option A) (k : nat) (r : A) : Prop :=
  loop k = Some r /\ forall n, (n < k)%nat -> loop n = None.

(** [iterations stage_two stage_half sf k_up k_down]: on input [sf] the
    first loop runs exactly [k_up] times and the second exactly [k_down]
    times. *)
Definition iterations {F : Type} `{PyFloat F} {T : Type}
    (stage_two stage_half : T) (sf : F) (k_up k_down : nat) : Prop :=
  exists mid final,
    runs_in (fun n => speed_up stage_two n [] sf) k_up mid /\
    runs_in (fun n => slow_down stage_half n (fst mid) (snd mid)) k_down final.

(** Two runs are related when both run out of fuel or both return, with
    related results. *)
Definition related {A B : Type} (P : A -> B -> Prop)
    (a : option A) (b : option B) : Prop :=
  match a, b with
  | Some a, Some b => P a b
  | None, None => True
  | _, _ => False
  end.

(** The locals of a run on doubles and of a run on rationals: stages
    related by [R], and the double [sf] standing for the rational [sf]. *)
Definition related_locals {T1 T2 : Type} (R : T1 -> T2 -> Prop)
    (a : list T1 * spec_float) (b : list T2 * Qc) : Prop :=
  Forall2 R (fst a) (fst b) /\ Binary64.represents (snd a) (snd b).

Local Open Scope Qc_scope.

Definition chain_product (chain : list Qc) : Qc :=
  fold_right Qcmult 1 chain.

(** The band of multipliers one [atempo] filter accepts. *)
Definition in_band (m : Qc) : Prop := 0.5 <= m /\ m <= 2.0.

(** [greedy_split sf k_up k_down rest]: [sf] is [rest] times [2^k_up]
    over [2^k_down], the remainder [rest] is in the band, and at most one
    of the two loops has run. *)
Definition greedy_split (sf : Qc) (k_up k_down : nat) (rest : Qc) : Prop :=
  rest * 2.0 ^ k_up = sf * 2.0 ^ k_down /\ in_band rest /\
  (k_up <> O -> k_down = O /\ 1 < rest) /\
  (k_down <> O -> k_up = O /\ rest < 1).

(** The length formula of the specification,
    [ceil(log2(max(s, 1/s) / 2)) + 1]. *)

Definition Qcmax (x y : Qc) : Qc := if Qclt_le_dec x y then y else x.

Definition pow2 (k : Z) : Qc := Q2Qc (2 ^ k)%Q.

(** [ceil_log2 x k]: [k] is the ceiling of the binary logarithm of [x]. *)
Definition ceil_log2 (x : Qc) (k : Z) : Prop :=
  pow2 (k - 1) < x /\ x <= pow2 k.

Definition formula_length (s : Qc) (n : Z) : Prop :=
  exists k, ceil_log2 (Qcmax s (/ s) / 2.0) k /\ n = (k + 1)%Z.

(** ** The function on the heap of Python's objects

    [tempos] is a Python list: an object on the heap, which [append]
    changes in place and which every holder of a reference to it sees
    change.  A [heap] holds the list objects in the order of their
    allocation, and a reference is a position in it.  Floats and strings
    are immutable values and are not on this heap; the parameter [sf] is
    a local name, which the loops rebind.  Each definition below is one
    statement of the source, with the heap passed along. *)

Definition heap : Type := list (list string).
Definition ref : Type := nat.

(** The display [[]]: a new empty list object, and the reference to it. *)
Definition heap_new (h : heap) : heap * ref :=
  ((h ++ [nil])%list, List.length h).

(** [r.append(x)]: the object at [r] gets [x] at its end. *)
Fixpoint heap_append (h : heap) (r : ref) (x : string) : heap :=
  match h, r with
  | nil, _ => nil
  | l :: h', O => (l ++ [x]%list) :: h'
  | l :: h', S r' => l :: heap_append h' r' x
  end.

(** [",".join(r)] *)
Definition heap_join (h : heap) (r : ref) : option string :=
  option_map (String.concat ",") (nth_error h r).

Section OnHeap.
Context {F : Type} `{PyFloat F}.
Variable float_str : F -> string.

Local Open Scope pyfloat_scope.

(** [while sf > 2.0: tempos.append("atempo=2.0"); sf /= 2.0] *)
Fixpoint speed_up_heap (fuel : nat) (h : heap) (tempos : ref) (sf : F)
  : option (heap * F) :=
  if sf > 2.0 then
    match fuel with
    | O => None
    | S fuel' =>
        speed_up_heap fuel' (heap_append h tempos "atempo=2.0") tempos (sf / 2.0)
    end
  else Some (h, sf).

(** [while sf < 0.5: tempos.append("atempo=0.5"); sf *= 2.0] *)
Fixpoint slow_down_heap (fuel : nat) (h : heap) (tempos : ref) (sf : F)
  : option (heap * F) :=
  if sf < 0.5 then
    match fuel with
    | O => None
    | S fuel' =>
        slow_down_heap fuel' (heap_append h tempos "atempo=0.5") tempos (sf * 2.0)
    end
  else Some (h, sf).

(** A call of [atempo_chain(sf)] on the heap [h]: the heap it leaves and
    the string it returns. *)
Definition atempo_chain_heap (fuel : nat) (h : heap) (sf : F)
  : option (heap * string) :=
  let (h, tempos) := heap_new h in
  match speed_up_heap fuel h tempos sf with
  | None => None
  | Some (h, sf) =>
      match slow_down_heap fuel h tempos sf with
      | None => None
      | Some (h, sf) =>
          let h := heap_append h tempos ("atempo=" ++ float_str sf) in
          option_map (fun out => (h, out)) (heap_join h tempos)
      end
  end.
End OnHeap.

(** ** A float formatter for the examples

    [decimal_str] writes a rational in positional decimal notation with
    at least one and at most 17 digits after the point.  Python prints
    the doubles of the scenario table in this form ([2.0], [0.5],
    [1.5]). *)

Definition digit_char (d : Z) : ascii := ascii_of_nat (48 + Z.to_nat d).

Fixpoint fraction_digits (n : nat) (num den : Z) : string :=
  match n with
  | O => EmptyString
  | S n' =>
      let d := (10 * num / den)%Z in
      let r := ((10 * num) mod den)%Z in
      String (digit_char d)
        (if (r =? 0)%Z then EmptyString else fraction_digits n' r den)
  end.

Definition decimal_str (q : Qc) : string :=
  let num := Qnum q in
  let den := Z.pos (Qden q) in
  let whole := (Z.abs num / den)%Z in
  let frac := (Z.abs num mod den)%Z in
  ((if (num <? 0)%Z then "-" else EmptyString) ++
   NilZero.string_of_uint (N.to_uint (Z.to_N whole)) ++ "." ++
   fraction_digits 17 frac den)%string.

(** ** The script around the function

    The rest of [VSC.py] is a Streamlit script.  Its widgets, the
    temporary directory and the FFmpeg process are outside the
    embedding; what the script computes from the widget values is
    modelled here, over the exact arithmetic, and the division
    [1/speed_factor] of the FFmpeg command over the doubles. *)

Module Script.

(** [min_speed, max_speed = 0.1, 8.0] *)
Definition min_speed : Qc := Q2Qc (1 # 10).
Definition max_speed : Qc := Q2Qc (8 # 1).

(** What [st.slider] and [st.number_input] return, given [min_speed] and
    [max_speed] as their bounds. *)
Definition in_range (v : Qc) : Prop := min_speed <= v /\ v <= max_speed.

(** [if abs(speed_manual - speed_slider) > 1e-6: speed_factor = speed_manual]
    [else: speed_factor = speed_slider] *)
Definition speed_factor (speed_manual speed_slider : Qc) : Qc :=
  if Qclt_le_dec 1e-6 [speed_manual - speed_slider]
  then speed_manual else speed_slider.

(** [if uploaded_file and speed_factor > 0:] *)
Definition should_process (uploaded_file : bool) (speed_factor : Qc) : bool :=
  uploaded_file && (if Qclt_le_dec 0 speed_factor then true else false).

(** [1/speed_factor], the factor of [setpts] on the video stream: the
    division of doubles that Python runs, of the float of [1] by the
    speed factor. *)
Definition one : spec_float := S754_finite false 4503599627370496 (-52).

Definition video_scale (speed_factor : spec_float) : spec_float :=
  SFdiv Binary64.prec Binary64.emax one speed_factor.

(** The nearest integer, ties to the even one: the rounding of Python's
    float formatting. *)
Definition round_half_even (q : Q) : Z :=
  let t := Qnum q in
  let d := Z.pos (Qden q) in
  let f := (t / d)%Z in
  match (2 * (t mod d) ?= d)%Z with
  | Lt => f
  | Gt => (f + 1)%Z
  | Eq => if Z.even f then f else (f + 1)%Z
  end.

(** The number of hundredths [f"{x:.2f}"] prints. *)
Definition hundredths (x : Qc) : Z :=
  round_half_even (this (Qcabs x) * 100)%Q.

(** The text before the decimal point: sign and integer digits. *)
Definition whole_text (x : Qc) : string :=
  ((if Qclt_le_dec x 0 then "-" else EmptyString) ++
   NilZero.string_of_uint (N.to_uint (Z.to_N (hundredths x / 100))))%string.

Definition tenths_digit (x : Qc) : ascii :=
  digit_char (hundredths x mod 100 / 10).

Definition hundredths_digit (x : Qc) : ascii :=
  digit_char (hundredths x mod 10).

(** [f"{x:.2f}"] *)
Definition format_2f (x : Qc) : string :=
  (whole_text x ++ "." ++
   String (tenths_digit x) (String (hundredths_digit x) EmptyString))%string.

(** [s.rstrip(c)] for a one-character [c]: [s] without its trailing
    occurrences of [c]. *)
Fixpoint rstrip (c : ascii) (s : string) : string :=
  match s with
  | EmptyString => EmptyString
  | String a s' =>
      match rstrip c s' with
      | EmptyString => if Ascii.eqb a c then EmptyString else String a EmptyString
      | rest => String a rest
      end
  end.

(** [safe_speed_str = f"{speed_factor:.2f}".rstrip("0").rstrip(".")] *)
Definition safe_speed_str (speed_factor : Qc) : string :=
  rstrip "." (rstrip "0" (format_2f speed_factor)).

(** [output_filename = f"{base_name}.{safe_speed_str}x{ext}"] *)
Definition output_filename (base_name ext : string) (speed_factor : Qc)
  : string :=
  (base_name ++ "." ++ safe_speed_str speed_factor ++ "x" ++ ext)%string.

(** The list [ffmpeg_cmd], from the paths, the speed factor and the
    filters [atempo_chain] returned. *)
Definition ffmpeg_cmd (float_str : spec_float -> string)
    (input_path output_path : string) (speed_factor : spec_float)
    (atempo_filters : string) : list string :=
  ["ffmpeg"; "-i"; input_path;
   "-vf"; "setpts=" ++ float_str (video_scale speed_factor) ++ "*PTS";
   "-af"; atempo_filters;
   "-c:v"; "libx264"; "-crf"; "18"; "-preset"; "ultrafast";
   "-c:a"; "aac"; "-b:a"; "192k";
   "-y"; output_path]%string.
End Script.

(** ** Doubles that are no speed factor *)

(** Zero, the negative doubles and the infinities. *)
Definition no_speed_factor (x : spec_float) : Prop :=
  match x with
  | S754_zero _ | S754_infinity _ | S754_finite true _ _ => True
  | S754_finite false _ _ | S754_nan => False
  end.

(** The rational a double stands for ([0] where it stands for none). *)
Definition double_value (x : spec_float) : Qc :=
  match x with
  | S754_finite false m e => Binary64.mag m e
  | S754_finite true m e => - Binary64.mag m e
  | _ => 0
  end.

(** ** Arithmetic on canonical rationals, through [Q] *)

Lemma Qc_eq_Qeq (a b : Qc) : a = b <-> (this a == this b)%Q.
Proof.
  split; [intros ->; reflexivity | apply Qc_is_canon].
Qed.

Lemma this_plus (a b : Qc) : (this (a + b) == this a + this b)%Q.
Proof. apply Qred_correct. Qed.

Lemma this_mult (a b : Qc) : (this (a * b) == this a * this b)%Q.
Proof. apply Qred_correct. Qed.

Lemma this_opp (a : Qc) : (this (- a) == - this a)%Q.
Proof. apply Qred_correct. Qed.

Lemma this_inv (a : Qc) : (this (/ a) == / this a)%Q.
Proof. apply Qred_correct. Qed.

Lemma this_minus (a b : Qc) : (this (a - b) == this a - this b)%Q.
Proof. unfold Qcminus. now rewrite this_plus, this_opp. Qed.

Lemma this_div (a b : Qc) : (this (a / b) == this a * / this b)%Q.
Proof. unfold Qcdiv. now rewrite this_mult, this_inv. Qed.

Create Rewrite HintDb this_ops.
#[local] Hint Rewrite this_plus this_mult this_opp this_inv this_minus this_div
  : this_ops.

(** [to_Q] restates a goal on [Qc] as a goal on [Q], where [lra] and
    [nra] apply; powers of two are taken as unknowns. *)
Ltac to_Q :=
  repeat match goal with
         | |- context [Qcpower ?a ?k] =>
             let p := fresh "p" in set (p := Qcpower a k) in *; clearbody p
         | H : context [Qcpower ?a ?k] |- _ =>
             let p := fresh "p" in set (p := Qcpower a k) in *; clearbody p
         end;
  unfold in_band, Qcle, Qclt in *;
  repeat match goal with
         | H : @eq Qc _ _ |- _ => apply Qc_eq_Qeq in H
         | |- @eq Qc _ _ => apply Qc_is_canon
         end;
  autorewrite with this_ops in *;
  change (this 2.0) with (2 # 1)%Q in *;
  change (this 0.5) with (1 # 2)%Q in *;
  change (this 1e-6) with (1 # 1000000)%Q in *;
  change (this 0) with 0%Q in *;
  change (this 1) with 1%Q in *;
  cbn [Qinv Qnum Qden] in *.

Ltac qc_lra := to_Q; lra.

(** Powers of two. *)

Lemma pow2_succ (k : nat) : 2.0 ^ S k = 2.0 * 2.0 ^ k.
Proof. reflexivity. Qed.

Lemma pow2_ge_1 (k : nat) : 1 <= 2.0 ^ k.
Proof.
  induction k as [|k IH]; [discriminate|].
  rewrite pow2_succ. qc_lra.
Qed.

Lemma pow2_pos (k : nat) : 0 < 2.0 ^ k.
Proof. pose proof (pow2_ge_1 k). qc_lra. Qed.

Lemma pow2_mono (j k : nat) : (j <= k)%nat -> 2.0 ^ j <= 2.0 ^ k.
Proof.
  induction 1 as [|k _ IH]; [apply Qcle_refl|].
  rewrite pow2_succ. pose proof (pow2_pos k). qc_lra.
Qed.

Lemma pow2_lt_inv (j k : nat) : 2.0 ^ j < 2.0 ^ k -> (j < k)%nat.
Proof.
  intros H. destruct (Nat.lt_ge_cases j k) as [|Hge]; [assumption|].
  apply pow2_mono in Hge. qc_lra.
Qed.

Lemma pow2_above_nat (n : nat) : (inject_Z (Z.of_nat n) <= this (2.0 ^ n))%Q.
Proof.
  induction n as [|n IH]; [discriminate|].
  rewrite Nat2Z.inj_succ, <- Z.add_1_r, inject_Z_plus.
  pose proof (pow2_ge_1 n). rewrite pow2_succ.
  change (inject_Z 1) with 1%Q. qc_lra.
Qed.

(** Every rational lies below some power of two. *)
Lemma pow2_archimedean (q : Qc) : exists k : nat, q <= 2.0 ^ k.
Proof.
  destruct (Qarchimedean q) as [p Hp].
  exists (Pos.to_nat p).
  pose proof (pow2_above_nat (Pos.to_nat p)) as H.
  rewrite positive_nat_Z in H.
  unfold Qcle. change (Z.pos p # 1)%Q with (inject_Z (Z.pos p)) in Hp. lra.
Qed.

(** ** Facts that hold for every arithmetic *)

Section AnyFloat.
Context {F : Type} `{PyFloat F} {T : Type}.
Variables (stage_two stage_half : T) (stage_rest : F -> T).

(** More fuel never changes a result. *)
Lemma speed_up_fuel_mono n : forall m tempos sf r,
  speed_up stage_two n tempos sf = Some r -> (n <= m)%nat ->
  speed_up stage_two m tempos sf = Some r.
Proof.
  induction n as [|n IH]; intros [|m] tempos sf r; simpl;
    destruct (gtb sf two); intros Hrun Hnm;
    try discriminate; try assumption; try lia.
  apply IH; [assumption|lia].
Qed.

Lemma slow_down_fuel_mono n : forall m tempos sf r,
  slow_down stage_half n tempos sf = Some r -> (n <= m)%nat ->
  slow_down stage_half m tempos sf = Some r.
Proof.
  induction n as [|n IH]; intros [|m] tempos sf r; simpl;
    destruct (ltb sf half); intros Hrun Hnm;
    try discriminate; try assumption; try lia.
  apply IH; [assumption|lia].
Qed.

Lemma build_fuel_mono n m sf chain :
  build stage_two stage_half stage_rest n sf = Some chain -> (n <= m)%nat ->
  build stage_two stage_half stage_rest m sf = Some chain.
Proof.
  unfold build. intros Hrun Hnm.
  destruct (speed_up stage_two n [] sf) as [[t1 s1]|] eqn:Hup;
    [|discriminate].
  destruct (slow_down stage_half n t1 s1) as [[t2 s2]|] eqn:Hdown;
    [|discriminate].
  rewrite (speed_up_fuel_mono _ _ _ _ _ Hup Hnm).
  rewrite (slow_down_fuel_mono _ _ _ _ _ Hdown Hnm).
  assumption.
Qed.

(** Two runs on the same input give the same chain, whatever their
    fuel. *)
Lemma build_functional n m sf chain chain' :
  build stage_two stage_half stage_rest n sf = Some chain ->
  build stage_two stage_half stage_rest m sf = Some chain' ->
  chain = chain'.
Proof.
  intros Hn Hm.
  apply build_fuel_mono with (m := Nat.max n m) in Hn; [|lia].
  apply build_fuel_mono with (m := Nat.max n m) in Hm; [|lia].
  congruence.
Qed.

(** The stages are recorded in step: the chain recorded through
    [stage_two], [stage_half], [stage_rest] is the chain of multipliers
    mapped by any [render] that sends each multiplier to its record. *)
Lemma speed_up_map (render : F -> T) fuel : forall tempos sf,
  render two = stage_two ->
  speed_up stage_two fuel (map render tempos) sf
  = option_map (fun r => (map render (fst r), snd r))
      (speed_up two fuel tempos sf).
Proof.
  induction fuel as [|fuel IH]; intros tempos sf Htwo; simpl;
    destruct (gtb sf two); try reflexivity.
  rewrite <- IH by assumption. rewrite map_app. simpl. now rewrite Htwo.
Qed.

Lemma slow_down_map (render : F -> T) fuel : forall tempos sf,
  render half = stage_half ->
  slow_down stage_half fuel (map render tempos) sf
  = option_map (fun r => (map render (fst r), snd r))
      (slow_down half fuel tempos sf).
Proof.
  induction fuel as [|fuel IH]; intros tempos sf Hhalf; simpl;
    destruct (ltb sf half); try reflexivity.
  rewrite <- IH by assumption. rewrite map_app. simpl. now rewrite Hhalf.
Qed.

Lemma build_map fuel sf :
  stage_rest two = stage_two -> stage_rest half = stage_half ->
  build stage_two stage_half stage_rest fuel sf
  = option_map (map stage_rest) (tempo_chain fuel sf).
Proof.
  intros Htwo Hhalf. unfold tempo_chain, build.
  change (@nil T) with (map stage_rest []).
  rewrite (speed_up_map stage_rest) by assumption.
  destruct (speed_up two fuel [] sf) as [[t1 s1]|]; [|reflexivity].
  simpl. rewrite (slow_down_map stage_rest) by assumption.
  destruct (slow_down half fuel t1 s1) as [[t2 s2]|]; [|reflexivity].
  simpl. now rewrite map_app.
Qed.
End AnyFloat.

(** ** Facts of the exact arithmetic *)

Section BuilderFacts.
Context {T : Type}.
Variables (stage_two stage_half : T) (stage_rest : Qc -> T).
Implicit Types sf : Qc.

Lemma speed_up_exit tempos sf fuel :
  sf <= 2.0 -> speed_up stage_two fuel tempos sf = Some (tempos, sf).
Proof.
  intros H. destruct fuel; simpl; unfold gtb, ltb; simpl;
    (destruct (Qclt_le_dec 2.0 sf) as [Hgt|_]; [|reflexivity]);
    exfalso; revert Hgt; apply Qcle_not_lt, H.
Qed.

Lemma speed_up_iter tempos sf fuel :
  2.0 < sf ->
  speed_up stage_two (S fuel) tempos sf
  = speed_up stage_two fuel (tempos ++ [stage_two]) (sf / 2.0).
Proof.
  intros H. simpl. unfold gtb, ltb; simpl. destruct (Qclt_le_dec 2.0 sf) as [_|Hle]; [reflexivity|].
  exfalso. revert H. apply Qcle_not_lt, Hle.
Qed.

Lemma speed_up_stuck tempos sf :
  2.0 < sf -> speed_up stage_two 0 tempos sf = None.
Proof.
  intros H. simpl. unfold gtb, ltb; simpl. destruct (Qclt_le_dec 2.0 sf) as [_|Hle]; [reflexivity|].
  exfalso. revert H. apply Qcle_not_lt, Hle.
Qed.

Lemma slow_down_exit tempos sf fuel :
  0.5 <= sf -> slow_down stage_half fuel tempos sf = Some (tempos, sf).
Proof.
  intros H. destruct fuel; simpl; unfold gtb, ltb; simpl;
    (destruct (Qclt_le_dec sf 0.5) as [Hlt|_]; [|reflexivity]);
    exfalso; revert Hlt; apply Qcle_not_lt, H.
Qed.

Lemma slow_down_iter tempos sf fuel :
  sf < 0.5 ->
  slow_down stage_half (S fuel) tempos sf
  = slow_down stage_half fuel (tempos ++ [stage_half]) (sf * 2.0).
Proof.
  intros H. simpl. unfold gtb, ltb; simpl. destruct (Qclt_le_dec sf 0.5) as [_|Hle]; [reflexivity|].
  exfalso. revert H. apply Qcle_not_lt, Hle.
Qed.

Lemma slow_down_stuck tempos sf :
  sf < 0.5 -> slow_down stage_half 0 tempos sf = None.
Proof.
  intros H. simpl. unfold gtb, ltb; simpl. destruct (Qclt_le_dec sf 0.5) as [_|Hle]; [reflexivity|].
  exfalso. revert H. apply Qcle_not_lt, Hle.
Qed.

(** What the first loop leaves behind when it stops: it has run some
    [k] iterations, appended [k] stages and divided [sf] by [2^k]. *)
Lemma speed_up_spec fuel : forall tempos sf tempos' sf',
  speed_up stage_two fuel tempos sf = Some (tempos', sf') ->
  exists k, (k <= fuel)%nat /\
    runs_in (fun n => speed_up stage_two n tempos sf) k (tempos', sf') /\
    tempos' = tempos ++ repeat stage_two k /\
    sf' * 2.0 ^ k = sf /\ sf' <= 2.0 /\ (k <> O -> 1 < sf').
Proof.
  induction fuel as [|fuel IH]; intros tempos sf tempos' sf' Hrun;
    destruct (Qclt_le_dec 2.0 sf) as [Hgt|Hle].
  2, 4: rewrite speed_up_exit in Hrun by assumption; injection Hrun as <- <-;
    exists O; split; [lia|]; split; [split|]; [now apply speed_up_exit|lia|];
    rewrite app_nil_r; repeat split;
    [apply Qcmult_1_r | assumption | congruence].
  - rewrite speed_up_stuck in Hrun by assumption. discriminate.
  - rewrite speed_up_iter in Hrun by assumption.
    destruct (IH _ _ _ _ Hrun) as (k & Hk & [Hex Hmin] & Ht & Hs & Hle & Hone).
    exists (S k). split; [lia|]. split; [split|].
    + now rewrite speed_up_iter.
    + intros [|n] Hn; [now apply speed_up_stuck|].
      rewrite speed_up_iter by assumption. apply Hmin. lia.
    + split; [rewrite Ht, <- app_assoc; reflexivity|].
      split; [rewrite pow2_succ; clear - Hs; qc_lra|].
      split; [assumption|]. intros _.
      destruct k as [|k]; [|apply Hone; discriminate].
      simpl in Hs. clear - Hs Hgt. qc_lra.
Qed.

(** The second loop, likewise: [k] stages appended, [sf] multiplied by
    [2^k]. *)
Lemma slow_down_spec fuel : forall tempos sf tempos' sf',
  slow_down stage_half fuel tempos sf = Some (tempos', sf') ->
  exists k, (k <= fuel)%nat /\
    runs_in (fun n => slow_down stage_half n tempos sf) k (tempos', sf') /\
    tempos' = tempos ++ repeat stage_half k /\
    sf' = sf * 2.0 ^ k /\ 0.5 <= sf' /\ (k <> O -> sf' < 1).
Proof.
  induction fuel as [|fuel IH]; intros tempos sf tempos' sf' Hrun;
    destruct (Qclt_le_dec sf 0.5) as [Hlt|Hge].
  2, 4: rewrite slow_down_exit in Hrun by assumption; injection Hrun as <- <-;
    exists O; split; [lia|]; split; [split|]; [now apply slow_down_exit|lia|];
    rewrite app_nil_r; repeat split;
    [symmetry; apply Qcmult_1_r | assumption | congruence].
  - rewrite slow_down_stuck in Hrun by assumption. discriminate.
  - rewrite slow_down_iter in Hrun by assumption.
    destruct (IH _ _ _ _ Hrun) as (k & Hk & [Hex Hmin] & Ht & Hs & Hge & Hone).
    exists (S k). split; [lia|]. split; [split|].
    + now rewrite slow_down_iter.
    + intros [|n] Hn; [now apply slow_down_stuck|].
      rewrite slow_down_iter by assumption. apply Hmin. lia.
    + split; [rewrite Ht, <- app_assoc; reflexivity|].
      split; [rewrite pow2_succ; clear - Hs; qc_lra|].
      split; [assumption|]. intros _.
      destruct k as [|k]; [|apply Hone; discriminate].
      simpl in Hs. clear - Hs Hlt Hge. qc_lra.
Qed.

(** Termination.  The first loop stops on every input: [k] halvings
    bring any [sf <= 2 * 2^k] into reach of the exit test. *)
Lemma speed_up_bounded k : forall tempos sf,
  sf <= 2.0 * 2.0 ^ k ->
  exists r, speed_up stage_two k tempos sf = Some r.
Proof.
  induction k as [|k IH]; intros tempos sf Hb;
    destruct (Qclt_le_dec 2.0 sf) as [Hgt|Hle].
  2, 4: eexists; now apply speed_up_exit.
  - exfalso. simpl in Hb. clear - Hb Hgt. qc_lra.
  - rewrite speed_up_iter by assumption. apply IH.
    rewrite pow2_succ in Hb. clear - Hb. qc_lra.
Qed.

Lemma speed_up_terminates tempos sf :
  exists fuel r, speed_up stage_two fuel tempos sf = Some r.
Proof.
  destruct (pow2_archimedean sf) as [k Hk]. exists k.
  apply speed_up_bounded. pose proof (pow2_pos k). clear - Hk H. qc_lra.
Qed.

(** The second loop stops on every positive input, and on no other. *)
Lemma slow_down_bounded k : forall tempos sf,
  0.5 <= sf * 2.0 ^ k ->
  exists r, slow_down stage_half k tempos sf = Some r.
Proof.
  induction k as [|k IH]; intros tempos sf Hb;
    destruct (Qclt_le_dec sf 0.5) as [Hlt|Hge].
  2, 4: eexists; now apply slow_down_exit.
  - exfalso. simpl in Hb. rewrite Qcmult_1_r in Hb. clear - Hb Hlt. qc_lra.
  - rewrite slow_down_iter by assumption. apply IH.
    rewrite pow2_succ in Hb. clear - Hb. qc_lra.
Qed.

Lemma slow_down_terminates tempos sf :
  0 < sf -> exists fuel r, slow_down stage_half fuel tempos sf = Some r.
Proof.
  intros Hpos. destruct (pow2_archimedean (/ sf)) as [k Hk]. exists k.
  apply slow_down_bounded.
  apply Qcle_trans with 1; [discriminate|].
  rewrite <- (Qcmult_inv_r sf) by (intros ->; discriminate).
  rewrite !(Qcmult_comm sf). apply Qcmult_le_compat_r; [assumption|].
  now apply Qclt_le_weak.
Qed.

Lemma slow_down_diverges fuel : forall tempos sf,
  sf <= 0 -> slow_down stage_half fuel tempos sf = None.
Proof.
  induction fuel as [|fuel IH]; intros tempos sf Hneg.
  - apply slow_down_stuck. clear - Hneg. qc_lra.
  - rewrite slow_down_iter by (clear - Hneg; qc_lra).
    apply IH. clear - Hneg. qc_lra.
Qed.
End BuilderFacts.

Section BuildFacts.
Context {T : Type}.
Variables (stage_two stage_half : T) (stage_rest : Qc -> T).
Implicit Types sf rest : Qc.

Lemma build_spec fuel sf chain :
  build stage_two stage_half stage_rest fuel sf = Some chain ->
  exists k_up k_down rest,
    (k_up <= fuel)%nat /\ (k_down <= fuel)%nat /\
    iterations stage_two stage_half sf k_up k_down /\
    chain = repeat stage_two k_up ++ repeat stage_half k_down
            ++ [stage_rest rest] /\
    greedy_split sf k_up k_down rest.
Proof.
  unfold build. intros Hrun.
  destruct (speed_up stage_two fuel [] sf) as [[t1 s1]|] eqn:Hup;
    [|discriminate].
  destruct (slow_down stage_half fuel t1 s1) as [[t2 s2]|] eqn:Hdown;
    [|discriminate].
  injection Hrun as <-.
  apply speed_up_spec in Hup
    as (k1 & Hk1 & Hruns1 & -> & Hs1 & Hle1 & Hone1).
  apply slow_down_spec in Hdown
    as (k2 & Hk2 & Hruns2 & -> & Hs2 & Hge2 & Hone2).
  exists k1, k2, s2. split; [assumption|]. split; [assumption|].
  split; [eexists (_, _), _; split; eassumption|].
  split; [now rewrite <- app_assoc|].
  assert (Hexcl : k1 <> O -> k2 = O).
  { intros H1. specialize (Hone1 H1).
    destruct k2 as [|k2]; [reflexivity|]. exfalso.
    assert (Hlt : s2 < 1) by (apply Hone2; discriminate).
    pose proof (pow2_ge_1 (S k2)). clear - Hs2 Hone1 Hlt H. subst s2.
    to_Q. nra. }
  split; [|split; [|split]].
  - subst s2. rewrite <- Hs1. ring.
  - split; [assumption|].
    destruct k2 as [|k2].
    + subst s2. simpl. rewrite Qcmult_1_r. assumption.
    + assert (Hlt : s2 < 1) by (apply Hone2; discriminate).
      clear - Hlt. qc_lra.
  - intros H1. split; [now apply Hexcl|].
    rewrite Hs2, (Hexcl H1). simpl. rewrite Qcmult_1_r. now apply Hone1.
  - intros H2. split; [|now apply Hone2].
    destruct k1 as [|k1]; [reflexivity|].
    exfalso. apply H2, Hexcl. discriminate.
Qed.

Lemma build_terminates sf :
  0 < sf ->
  exists fuel chain, build stage_two stage_half stage_rest fuel sf = Some chain.
Proof.
  intros Hpos.
  destruct (speed_up_terminates stage_two [] sf) as (n1 & [t1 s1] & Hup).
  assert (Hpos1 : 0 < s1).
  { apply speed_up_spec in Hup as (k & _ & _ & _ & Hs & _).
    pose proof (pow2_pos k). clear - Hs Hpos H. to_Q. nra. }
  destruct (slow_down_terminates stage_half t1 s1 Hpos1)
    as (n2 & [t2 s2] & Hdown).
  exists (Nat.max n1 n2), (t2 ++ [stage_rest s2]). unfold build.
  rewrite (speed_up_fuel_mono _ _ (Nat.max n1 n2) _ _ _ Hup) by lia.
  rewrite (slow_down_fuel_mono _ _ (Nat.max n1 n2) _ _ _ Hdown) by lia.
  reflexivity.
Qed.

(** On a speed factor that is not positive the call never returns. *)
Lemma build_diverges fuel sf :
  sf <= 0 -> build stage_two stage_half stage_rest fuel sf = None.
Proof.
  intros Hneg. unfold build.
  rewrite speed_up_exit by (clear - Hneg; qc_lra).
  now rewrite slow_down_diverges.
Qed.

(** The full account of a call on a positive speed factor. *)
Lemma build_total sf :
  0 < sf ->
  exists k_up k_down rest,
    iterations stage_two stage_half sf k_up k_down /\
    greedy_split sf k_up k_down rest /\
    forall fuel, (Nat.max k_up k_down <= fuel)%nat ->
      build stage_two stage_half stage_rest fuel sf
      = Some (repeat stage_two k_up ++ repeat stage_half k_down
              ++ [stage_rest rest]).
Proof.
  intros Hpos. destruct (build_terminates sf Hpos) as (n & chain & Hrun).
  destruct (build_spec _ _ _ Hrun)
    as (k1 & k2 & rest & _ & _ & Hit & -> & Hsplit).
  exists k1, k2, rest. split; [assumption|]. split; [assumption|].
  intros fuel Hfuel.
  destruct Hit as ([t1 s1] & [t2 s2] & [Hup _] & [Hdown _]).
  simpl in Hdown.
  assert (Hb : build stage_two stage_half stage_rest (Nat.max k1 k2) sf
               = Some (t2 ++ [stage_rest s2])).
  { unfold build.
    rewrite (speed_up_fuel_mono _ _ (Nat.max k1 k2) _ _ _ Hup) by lia.
    rewrite (slow_down_fuel_mono _ _ (Nat.max k1 k2) _ _ _ Hdown) by lia.
    reflexivity. }
  rewrite <- (build_functional _ _ _ _ _ _ _ _ Hb Hrun).
  now apply build_fuel_mono with (n := Nat.max k1 k2).
Qed.
End BuildFacts.

(** ** The chain of multipliers *)

Lemma chain_product_app (a b : list Qc) :
  chain_product (a ++ b) = chain_product a * chain_product b.
Proof.
  induction a as [|m a IH]; simpl.
  - now rewrite Qcmult_1_l.
  - rewrite IH. apply Qcmult_assoc.
Qed.

Lemma chain_product_twos (k : nat) : chain_product (repeat 2.0 k) = 2.0 ^ k.
Proof. induction k as [|k IH]; simpl; [|rewrite IH]; reflexivity. Qed.

Lemma chain_product_halves (k : nat) :
  chain_product (repeat 0.5 k) * 2.0 ^ k = 1.
Proof.
  induction k as [|k IH]; [reflexivity|].
  simpl repeat. simpl chain_product. rewrite pow2_succ.
  clear - IH. qc_lra.
Qed.

(** A speed factor that is not positive is outside the contract: the
    second loop doubles it for ever and the call never returns. *)
Lemma atempo_chain_diverges (float_str : Qc -> string) (s : Qc) (fuel : nat) :
  s <= 0 -> atempo_chain float_str fuel s = None.
Proof.
  intros Hneg. unfold atempo_chain. now rewrite build_diverges.
Qed.

(** A call on a positive speed factor: iteration counts, remainder and
    chain. *)
Lemma tempo_chain_total (s : Qc) :
  0 < s ->
  exists k_up k_down rest,
    iterations 2.0 0.5 s k_up k_down /\
    greedy_split s k_up k_down rest /\
    forall fuel, (Nat.max k_up k_down <= fuel)%nat ->
      tempo_chain fuel s
      = Some (repeat 2.0 k_up ++ repeat 0.5 k_down ++ [rest]).
Proof. exact (build_total 2.0 0.5 (fun sf => sf) s). Qed.

Lemma tempo_chain_shape (s : Qc) :
  0 < s ->
  exists k_up k_down rest,
    greedy_split s k_up k_down rest /\
    chain_of s (repeat 2.0 k_up ++ repeat 0.5 k_down ++ [rest]).
Proof.
  intros Hpos.
  destruct (tempo_chain_total s Hpos) as (k1 & k2 & rest & _ & Hsplit & Hrun).
  exists k1, k2, rest. split; [assumption|].
  exists (Nat.max k1 k2). now apply Hrun.
Qed.

Lemma greedy_product (s : Qc) (k_up k_down : nat) (rest : Qc) :
  greedy_split s k_up k_down rest ->
  chain_product (repeat 2.0 k_up ++ repeat 0.5 k_down ++ [rest]) = s.
Proof.
  intros (Heq & _).
  rewrite !chain_product_app, chain_product_twos. simpl chain_product.
  rewrite Qcmult_1_r.
  pose proof (chain_product_halves k_down) as Hh.
  set (h := chain_product (repeat 0.5 k_down)) in *.
  transitivity (h * (rest * 2.0 ^ k_up)); [ring|]. rewrite Heq.
  transitivity (s * (h * 2.0 ^ k_down)); [ring|]. rewrite Hh. ring.
Qed.

Lemma greedy_band (s : Qc) (k_up k_down : nat) (rest : Qc) :
  greedy_split s k_up k_down rest ->
  Forall in_band (repeat 2.0 k_up ++ repeat 0.5 k_down ++ [rest]).
Proof.
  intros (_ & Hband & _).
  rewrite !Forall_app. repeat split.
  - apply Forall_forall. intros m Hm. apply repeat_spec in Hm as ->.
    split; discriminate.
  - apply Forall_forall. intros m Hm. apply repeat_spec in Hm as ->.
    split; discriminate.
  - now constructor.
Qed.

(** ** IEEE doubles: the exact model is the float model *)

Module Binary64Facts.
Local Open Scope Z_scope.

Lemma digits2_pos_bounds (m : positive) :
  2 ^ (Z.pos (digits2_pos m) - 1) <= Z.pos m < 2 ^ Z.pos (digits2_pos m).
Proof.
  induction m as [m IH|m IH|]; simpl digits2_pos.
  - rewrite Pos2Z.inj_succ, Z.pow_succ_r by lia.
    replace (Z.succ (Z.pos (digits2_pos m)) - 1)
      with (Z.succ (Z.pos (digits2_pos m) - 1)) by lia.
    rewrite Z.pow_succ_r by lia. lia.
  - rewrite Pos2Z.inj_succ, Z.pow_succ_r by lia.
    replace (Z.succ (Z.pos (digits2_pos m)) - 1)
      with (Z.succ (Z.pos (digits2_pos m) - 1)) by lia.
    rewrite Z.pow_succ_r by lia. lia.
  - simpl. lia.
Qed.

Lemma digits2_pos_shiftl (m : positive) (p : positive) :
  digits2_pos (Pos.shiftl m (Npos p)) = (digits2_pos m + p)%positive.
Proof.
  simpl. induction p as [|p IH] using Pos.peano_ind.
  - simpl. lia.
  - rewrite Pos.iter_succ. simpl. rewrite IH. lia.
Qed.

Lemma div_eucl_exact (a b q : Z) :
  0 < b -> a = q * b -> Z.div_eucl a b = (q, 0).
Proof.
  intros Hb ->.
  assert (H : Z.div_eucl (q * b) b = (q * b / b, (q * b) mod b))
    by (unfold Z.div, Z.modulo; now destruct (Z.div_eucl (q * b) b)).
  rewrite H, Z.div_mul, Z.mod_mul by lia. reflexivity.
Qed.

Lemma shr_1_even (m : positive) :
  shr_1 (Binary64.exact_record m~0) = Binary64.exact_record m.
Proof. reflexivity. Qed.

Lemma iter_pos_shr_1 (p : positive) : forall m,
  iter_pos shr_1 p (Binary64.exact_record (Pos.iter xO m p)) = Binary64.exact_record m.
Proof.
  induction p as [p IH|p IH|]; intros m; cbn [iter_pos Pos.iter].
  - now rewrite shr_1_even, !IH.
  - now rewrite !IH.
  - apply shr_1_even.
Qed.

(** Rounding a mantissa that ends in [k] zero bits to the exponent at
    which the remaining bits are canonical drops these bits and nothing
    else. *)
Lemma binary_round_aux_exact (s : bool) (m : positive) (k : N) (E : Z) :
  canonical_mantissa Binary64.prec Binary64.emax m (E + Z.of_N k) = true ->
  E + Z.of_N k <= Binary64.emax - Binary64.prec ->
  binary_round_aux Binary64.prec Binary64.emax s (Z.pos (Pos.shiftl m k)) E loc_Exact
  = S754_finite s m (E + Z.of_N k).
Proof.
  intros Hcanon Hmax. unfold canonical_mantissa in Hcanon.
  apply Z.eqb_eq in Hcanon.
  assert (Hshift : shr_fexp Binary64.prec Binary64.emax (Z.pos (Pos.shiftl m k)) E loc_Exact
                   = (Binary64.exact_record m, E + Z.of_N k)).
  { unfold shr_fexp. cbn [Zdigits2].
    destruct k as [|p].
    - cbn [Pos.shiftl Z.of_N] in *. rewrite Z.add_0_r in *.
      rewrite Hcanon, Z.sub_diag. reflexivity.
    - rewrite digits2_pos_shiftl.
      change (Z.of_N (N.pos p)) with (Z.pos p) in *.
      replace (Z.pos (digits2_pos m + p) + E)
        with (Z.pos (digits2_pos m) + (E + Z.pos p)) by lia.
      rewrite Hcanon.
      replace (E + Z.pos p - E) with (Z.pos p) by lia.
      change (shr_record_of_loc (Z.pos (Pos.shiftl m (N.pos p))) loc_Exact)
        with (Binary64.exact_record (Pos.iter xO m p)).
      cbn [shr]. now rewrite iter_pos_shr_1. }
  unfold binary_round_aux. rewrite Hshift.
  cbn [Binary64.exact_record shr_m loc_of_shr_record round_nearest_even].
  unfold shr_fexp. cbn [Zdigits2].
  rewrite Hcanon, Z.sub_diag. cbn [shr shr_m shr_record_of_loc].
  apply Z.leb_le in Hmax. now rewrite Hmax.
Qed.

Lemma bounded_cases (m : positive) (e : Z) :
  bounded Binary64.prec Binary64.emax m e = true <->
  e <= 971 /\ Z.pos (digits2_pos m) <= 53 /\
  (Z.pos (digits2_pos m) = 53 /\ -1074 <= e \/ e = -1074).
Proof.
  unfold bounded, canonical_mantissa, fexp, emin, Binary64.prec, Binary64.emax.
  rewrite Bool.andb_true_iff, Z.eqb_eq, Z.leb_le. lia.
Qed.

Lemma mantissa_below (m : positive) :
  Z.pos (digits2_pos m) <= 53 -> Z.pos m < 2 ^ 53.
Proof.
  intros Hd. pose proof (digits2_pos_bounds m) as [_ Hhi].
  eapply Z.lt_le_trans; [exact Hhi|].
  apply Z.pow_le_mono_r; lia.
Qed.

Lemma mantissa_above (m : positive) :
  Z.pos (digits2_pos m) = 53 -> 2 ^ 52 <= Z.pos m.
Proof.
  intros Hd. pose proof (digits2_pos_bounds m) as [Hlo _].
  now rewrite Hd in Hlo.
Qed.

(** Dividing a double above 2.0 by 2.0 lowers its exponent by one. *)
Lemma div_two (m : positive) (e : Z) :
  bounded Binary64.prec Binary64.emax m e = true -> -51 <= e ->
  SFdiv Binary64.prec Binary64.emax (S754_finite false m e) Binary64.two = S754_finite false m (e - 1)
  /\ bounded Binary64.prec Binary64.emax m (e - 1) = true.
Proof.
  intros Hb He. apply bounded_cases in Hb as (Hmax & Hd & Hcanon).
  assert (Hd53 : digits2_pos m = 53%positive) by lia.
  split; [|apply bounded_cases; lia].
  unfold SFdiv, Binary64.two, SFdiv_core_binary.
  cbn [Zdigits2 xorb]. rewrite Hd53.
  change (digits2_pos 4503599627370496) with 53%positive.
  unfold fexp, emin, Binary64.prec, Binary64.emax.
  replace (Z.min _ _) with (e - 2) by lia.
  replace (e - -51 - (e - 2)) with 53 by lia.
  rewrite Z.shiftl_mul_pow2 by lia.
  rewrite (div_eucl_exact _ _ (Z.pos m~0)) by lia.
  cbn [new_location Z.even new_location_even Z.eqb].
  assert (Hround := binary_round_aux_exact false m 1 (e - 2)).
  unfold canonical_mantissa, fexp, emin, Binary64.prec, Binary64.emax in Hround.
  cbn [Pos.shiftl Pos.iter Z.of_N] in Hround.
  rewrite Hround; [f_equal; lia| |lia].
  rewrite Hd53. apply Z.eqb_eq. lia.
Qed.

(** Multiplying a double below 0.5 by 2.0 raises its exponent by one, or
    doubles its mantissa when it is subnormal. *)
Lemma mul_two (m : positive) (e : Z) :
  bounded Binary64.prec Binary64.emax m e = true -> e <= -54 ->
  exists m' e',
    SFmul Binary64.prec Binary64.emax (S754_finite false m e) Binary64.two = S754_finite false m' e' /\
    bounded Binary64.prec Binary64.emax m' e' = true /\
    (inject_Z (Z.pos m') * 2 ^ e' == inject_Z (Z.pos m) * 2 ^ e * 2)%Q.
Proof.
  intros Hb He. apply bounded_cases in Hb as (Hmax & Hd & Hcanon).
  unfold SFmul, Binary64.two. cbn [xorb].
  rewrite Pos.mul_comm.
  destruct (Z.eq_dec (Z.pos (digits2_pos m)) 53) as [Hd53|Hsub].
  - exists m, (e + 1). split; [|split].
    + change (4503599627370496 * m)%positive with (Pos.shiftl m 52).
      rewrite (binary_round_aux_exact false m 52 (e + -51)).
      * f_equal. simpl. lia.
      * unfold canonical_mantissa, fexp, emin, Binary64.prec, Binary64.emax.
        apply Z.eqb_eq. simpl Z.of_N. lia.
      * unfold Binary64.prec, Binary64.emax. simpl Z.of_N. lia.
    + apply bounded_cases. lia.
    + rewrite Qpower_plus by discriminate. change (2 ^ 1)%Q with 2%Q. ring.
  - assert (He' : e = -1074) by lia. subst e.
    exists m~0%positive, (-1074). split; [|split].
    + change (4503599627370496 * m)%positive with (Pos.shiftl m~0 51).
      rewrite (binary_round_aux_exact false m~0 51 (-1074 + -51)).
      * reflexivity.
      * unfold canonical_mantissa, fexp, emin, Binary64.prec, Binary64.emax.
        cbn [digits2_pos]. apply Z.eqb_eq. simpl Z.of_N. lia.
      * unfold Binary64.prec, Binary64.emax. simpl Z.of_N. lia.
    + apply bounded_cases. cbn [digits2_pos]. lia.
    + change (Z.pos m~0) with (2 * Z.pos m). rewrite inject_Z_mult.
      change (inject_Z 2) with 2%Q. ring.
Qed.

(** The order of doubles is the order of their values. *)
Lemma mag_scale (m : positive) (e e0 : Z) :
  e0 <= e ->
  (inject_Z (Z.pos m) * 2 ^ e
   == inject_Z (Z.pos m * 2 ^ (e - e0)) * 2 ^ e0)%Q.
Proof.
  intros Hle. replace e with ((e - e0) + e0) at 1 by lia.
  rewrite Qpower_plus by discriminate.
  rewrite inject_Z_mult, Zpower_Qpower by lia.
  change (inject_Z 2) with 2%Q. ring.
Qed.

Lemma scaled_lt (a b e0 : Z) :
  (inject_Z a * 2 ^ e0 < inject_Z b * 2 ^ e0)%Q <-> a < b.
Proof.
  rewrite Qmult_lt_r by (now apply Qpower_0_lt).
  now rewrite <- Zlt_Qlt.
Qed.

Lemma mag_lt_iff (m1 m2 : positive) (e1 e2 e0 : Z) :
  e0 <= e1 -> e0 <= e2 ->
  (Binary64.mag m1 e1 < Binary64.mag m2 e2)%Qc <->
  Z.pos m1 * 2 ^ (e1 - e0) < Z.pos m2 * 2 ^ (e2 - e0).
Proof.
  intros H1 H2. unfold Qclt, Binary64.mag, Q2Qc. cbn [this].
  rewrite !Qred_correct.
  rewrite (mag_scale m1 e1 e0 H1), (mag_scale m2 e2 e0 H2).
  apply scaled_lt.
Qed.

Lemma ltb_mag (m1 m2 : positive) (e1 e2 : Z) :
  bounded Binary64.prec Binary64.emax m1 e1 = true -> bounded Binary64.prec Binary64.emax m2 e2 = true ->
  SFltb (S754_finite false m1 e1) (S754_finite false m2 e2) = true
  <-> (Binary64.mag m1 e1 < Binary64.mag m2 e2)%Qc.
Proof.
  intros Hb1 Hb2.
  apply bounded_cases in Hb1 as (_ & Hd1 & Hc1).
  apply bounded_cases in Hb2 as (_ & Hd2 & Hc2).
  pose proof (mantissa_below m1 Hd1) as Hhi1.
  pose proof (mantissa_below m2 Hd2) as Hhi2.
  unfold SFltb, SFcompare.
  change (Pos.compare_cont Eq m1 m2) with (m1 ?= m2)%positive.
  destruct (Z.compare_spec e1 e2) as [Heq|Hlt|Hgt].
  - subst e2. rewrite (mag_lt_iff m1 m2 e1 e1 e1) by lia.
    rewrite Z.sub_diag, !Z.mul_1_r.
    destruct (Pos.compare_spec m1 m2); split; intros; try discriminate;
      try reflexivity; lia.
  - rewrite (mag_lt_iff m1 m2 e1 e2 e1) by lia.
    rewrite Z.sub_diag, Z.mul_1_r. split; [intros _|reflexivity].
    assert (Hlo2 : 2 ^ 52 <= Z.pos m2) by (apply mantissa_above; lia).
    assert (Hpow : 2 ^ 1 <= 2 ^ (e2 - e1)) by (apply Z.pow_le_mono_r; lia).
    change (2 ^ 1) with 2 in Hpow. nia.
  - rewrite (mag_lt_iff m1 m2 e1 e2 e2) by lia.
    rewrite Z.sub_diag, Z.mul_1_r. split; [discriminate|intros Habs].
    exfalso.
    assert (Hlo1 : 2 ^ 52 <= Z.pos m1) by (apply mantissa_above; lia).
    assert (Hpow : 2 ^ 1 <= 2 ^ (e1 - e2)) by (apply Z.pow_le_mono_r; lia).
    change (2 ^ 1) with 2 in Hpow. nia.
Qed.

Lemma represents_two : Binary64.represents Binary64.two Lit.two.
Proof.
  exists 4503599627370496%positive, (-51). repeat split.
  apply Qc_is_canon. vm_compute. reflexivity.
Qed.

Lemma represents_half : Binary64.represents Binary64.half Lit.half.
Proof.
  exists 4503599627370496%positive, (-53). repeat split.
  apply Qc_is_canon. vm_compute. reflexivity.
Qed.

(** The loop tests agree. *)
Lemma gtb_represents (x : spec_float) (q : Qc) :
  Binary64.represents x q -> gtb x two = gtb q two.
Proof.
  intros (m & e & -> & Hb & ->).
  destruct represents_two as (m2 & e2 & Htwo & Hb2 & Hq2).
  cbn [gtb two binary64 exact]. rewrite Htwo, Hq2.
  pose proof (ltb_mag m2 m e2 e Hb2 Hb) as Hiff.
  destruct (Qclt_le_dec (Binary64.mag m2 e2) (Binary64.mag m e)) as [Hlt|Hge].
  - now apply Hiff.
  - destruct (SFltb _ _); [|reflexivity].
    exfalso. apply (Qcle_not_lt _ _ Hge). now apply Hiff.
Qed.

Lemma ltb_represents (x : spec_float) (q : Qc) :
  Binary64.represents x q -> ltb x half = ltb q half.
Proof.
  intros (m & e & -> & Hb & ->).
  destruct represents_half as (m2 & e2 & Hhalf & Hb2 & Hq2).
  cbn [ltb half binary64 exact]. rewrite Hhalf, Hq2.
  pose proof (ltb_mag m m2 e e2 Hb Hb2) as Hiff.
  destruct (Qclt_le_dec (Binary64.mag m e) (Binary64.mag m2 e2)) as [Hlt|Hge].
  - now apply Hiff.
  - destruct (SFltb _ _); [|reflexivity].
    exfalso. apply (Qcle_not_lt _ _ Hge). now apply Hiff.
Qed.

(** The loop bodies agree: the float operations are exact. *)
Lemma div_represents (x : spec_float) (q : Qc) :
  Binary64.represents x q -> (2.0 < q)%Qc ->
  Binary64.represents (div x two) (div q two).
Proof.
  intros (m & e & -> & Hb & ->) Hgt. cbn [div two binary64 exact].
  assert (He : -51 <= e).
  { destruct represents_two as (m2 & e2 & Htwo & Hb2 & Hq2).
    rewrite Hq2 in Hgt. apply (ltb_mag _ _ _ _ Hb2 Hb) in Hgt.
    injection Htwo as <- <-. unfold SFltb, SFcompare in Hgt.
    destruct (Z.compare_spec (-51) e); try lia; discriminate. }
  destruct (div_two m e Hb He) as [Hdiv Hb'].
  exists m, (e - 1). split; [exact Hdiv|]. split; [exact Hb'|].
  apply Qc_is_canon. unfold Binary64.mag. rewrite this_div. unfold Q2Qc. cbn [this].
  rewrite !Qred_correct.
  replace (e - 1) with (e + -1) by lia.
  rewrite Qpower_plus by discriminate.
  change (this Lit.two) with 2%Q. change (2 ^ (-1))%Q with (/ 2)%Q. ring.
Qed.

Lemma mul_represents (x : spec_float) (q : Qc) :
  Binary64.represents x q -> (q < 0.5)%Qc ->
  Binary64.represents (mul x two) (mul q two).
Proof.
  intros (m & e & -> & Hb & ->) Hlt. cbn [mul two binary64 exact].
  assert (He : e <= -54).
  { destruct represents_half as (m2 & e2 & Hhalf & _ & Hq2).
    injection Hhalf as <- <-. rewrite Hq2 in Hlt.
    destruct (Z.le_gt_cases e (-54)) as [|Hge]; [assumption|exfalso].
    apply (mag_lt_iff _ _ _ _ (-53)) in Hlt; [|lia|lia].
    apply bounded_cases in Hb as (_ & _ & Hc).
    assert (Hlo : 2 ^ 52 <= Z.pos m) by (apply mantissa_above; lia).
    assert (Hpow : 2 ^ 0 <= 2 ^ (e - -53)) by (apply Z.pow_le_mono_r; lia).
    change (2 ^ 0) with 1 in Hpow.
    change (2 ^ (-53 - -53)) with 1 in Hlt.
    change (Z.pos 4503599627370496) with (2 ^ 52) in Hlt. nia. }
  destruct (mul_two m e Hb He) as (m' & e' & Hmul & Hb' & Hval).
  exists m', e'. split; [exact Hmul|]. split; [exact Hb'|].
  apply Qc_is_canon. unfold Binary64.mag. rewrite this_mult. unfold Q2Qc. cbn [this].
  rewrite !Qred_correct. change (this Lit.two) with 2%Q.
  symmetry. exact Hval.
Qed.

(** The loops agree: run on a double and on its value, they stop after
    the same number of iterations and leave related results. *)
Section Simulation.
Context {T1 T2 : Type} (R : T1 -> T2 -> Prop).
Variables (two1 half1 : T1) (two2 half2 : T2).
Variables (rest1 : spec_float -> T1) (rest2 : Qc -> T2).
Hypothesis R_two : R two1 two2.
Hypothesis R_half : R half1 half2.
Hypothesis R_rest : forall x q, Binary64.represents x q -> R (rest1 x) (rest2 q).

Lemma speed_up_sim fuel : forall t1 t2 x q,
  Forall2 R t1 t2 -> Binary64.represents x q ->
  related (related_locals R) (speed_up two1 fuel t1 x) (speed_up two2 fuel t2 q).
Proof.
  induction fuel as [|fuel IH]; intros t1 t2 x q Ht Hx; cbn [speed_up];
    rewrite (gtb_represents x q Hx); cbn [gtb exact];
    destruct (Qclt_le_dec two q) as [Hgt|Hle];
    try exact I; try (now split).
  apply IH; [|now apply div_represents].
  apply Forall2_app; [assumption|]. now constructor.
Qed.

Lemma slow_down_sim fuel : forall t1 t2 x q,
  Forall2 R t1 t2 -> Binary64.represents x q ->
  related (related_locals R) (slow_down half1 fuel t1 x) (slow_down half2 fuel t2 q).
Proof.
  induction fuel as [|fuel IH]; intros t1 t2 x q Ht Hx; cbn [slow_down];
    rewrite (ltb_represents x q Hx); cbn [ltb exact];
    destruct (Qclt_le_dec q half) as [Hlt|Hge];
    try exact I; try (now split).
  apply IH; [|now apply mul_represents].
  apply Forall2_app; [assumption|]. now constructor.
Qed.

Lemma build_sim fuel x q :
  Binary64.represents x q ->
  related (Forall2 R) (build two1 half1 rest1 fuel x)
                      (build two2 half2 rest2 fuel q).
Proof.
  intros Hx. unfold build.
  pose proof (speed_up_sim fuel [] [] x q (Forall2_nil R) Hx) as Hup.
  destruct (speed_up two1 fuel [] x) as [[t1 x1]|],
           (speed_up two2 fuel [] q) as [[t2 q1]|]; try easy.
  destruct Hup as [Ht Hx1]. simpl in Ht, Hx1.
  pose proof (slow_down_sim fuel t1 t2 x1 q1 Ht Hx1) as Hdown.
  destruct (slow_down half1 fuel t1 x1) as [[t1' x2]|],
           (slow_down half2 fuel t2 q1) as [[t2' q2]|]; try easy.
  destruct Hdown as [Ht' Hx2]. simpl in Ht', Hx2. simpl.
  apply Forall2_app; [assumption|]. constructor; [|constructor].
  now apply R_rest.
Qed.
End Simulation.

(** On every positive finite double the chain of doubles is, stage by
    stage, the chain of rationals built for its value. *)
Theorem tempo_chain_binary64 (x : spec_float) (q : Qc) (fuel : nat) :
  Binary64.represents x q ->
  related (Forall2 Binary64.represents) (tempo_chain fuel x) (tempo_chain fuel q).
Proof.
  intros Hx. unfold tempo_chain.
  apply (build_sim Binary64.represents); try assumption.
  - exact represents_two.
  - exact represents_half.
  - trivial.
Qed.

(** X8.  The source, run on doubles, returns the same string as run on
    their values, when both are given the same way of writing a number. *)
Theorem atempo_chain_binary64 (str64 : spec_float -> string)
    (str : Qc -> string) (x : spec_float) (q : Qc) (fuel : nat) :
  (forall x q, Binary64.represents x q -> str64 x = str q) ->
  Binary64.represents x q ->
  atempo_chain str64 fuel x = atempo_chain str fuel q.
Proof.
  intros Hstr Hx. unfold atempo_chain.
  pose proof (build_sim eq "atempo=2.0"%string "atempo=0.5"%string
                "atempo=2.0"%string "atempo=0.5"%string
                (stage_token str64) (stage_token str) eq_refl eq_refl) as Hsim.
  specialize (Hsim ltac:(intros; unfold stage_token; f_equal; now apply Hstr)
                   fuel x q Hx).
  destruct (build _ _ (stage_token str64) fuel x) as [c|],
           (build _ _ (stage_token str) fuel q) as [c'|]; try easy.
  simpl in *. f_equal. f_equal.
  induction Hsim; [reflexivity|]. now f_equal.
Qed.

Lemma represents_pos (x : spec_float) (q : Qc) :
  Binary64.represents x q -> (0 < q)%Qc.
Proof.
  intros (m & e & _ & _ & ->). unfold Qclt, Binary64.mag, Q2Qc. cbn [this].
  rewrite !Qred_correct. apply Qmult_lt_0_compat; [reflexivity|].
  now apply Qpower_0_lt.
Qed.

(** X7.  So the call returns on every positive finite double, with a
    chain of positive finite doubles whose values lie in the band and
    multiply to the value of the speed factor, exactly. *)
Corollary chain_of_binary64 (x : spec_float) (q : Qc) :
  Binary64.represents x q ->
  exists c c',
    chain_of x c /\ chain_of q c' /\ Forall2 Binary64.represents c c' /\
    Forall in_band c' /\ chain_product c' = q.
Proof.
  intros Hx. pose proof (represents_pos x q Hx) as Hpos.
  destruct (tempo_chain_shape q Hpos) as (k1 & k2 & rest & Hsplit & fuel & Hrun).
  pose proof (tempo_chain_binary64 x q fuel Hx) as Hsim.
  rewrite Hrun in Hsim.
  destruct (tempo_chain fuel x) as [c|] eqn:Hrun64; [|contradiction].
  exists c. eexists. split; [now exists fuel|].
  split; [exists fuel; exact Hrun|].
  split; [exact Hsim|]. split.
  - exact (greedy_band _ _ _ _ Hsplit).
  - exact (greedy_product _ _ _ _ Hsplit).
Qed.

(** Positive infinity is no speed factor: the first loop never ends on
    it. *)
Lemma infinity_diverges (fuel : nat) :
  tempo_chain fuel (S754_infinity false) = None.
Proof.
  unfold tempo_chain, build.
  assert (H : forall tempos,
    speed_up two fuel tempos (S754_infinity false) = None).
  { induction fuel as [|fuel IH]; intros tempos; [reflexivity|].
    simpl. apply IH. }
  now rewrite H.
Qed.
End Binary64Facts.

(** * The claims *)

(** C10.  Over the exact rationals the product of the stage multipliers
    is the speed factor itself, with no error: the chain is [k_up] stages
    of 2.0, [k_down] stages of 0.5 and the remainder [rest], where the
    loops have divided (or multiplied) the accumulator by two exactly
    [k_up] (or [k_down]) times, so that [rest * 2^k_up = s * 2^k_down]. *)
Theorem chain_product_exact (s : Qc) :
  0 < s ->
  exists chain k_up k_down rest,
    chain_of s chain /\
    chain = repeat 2.0 k_up ++ repeat 0.5 k_down ++ [rest] /\
    rest * 2.0 ^ k_up = s * 2.0 ^ k_down /\
    chain_product chain = s.
Proof.
  intros Hpos.
  destruct (tempo_chain_shape s Hpos) as (k1 & k2 & rest & Hsplit & Hchain).
  exists (repeat 2.0 k1 ++ repeat 0.5 k2 ++ [rest]), k1, k2, rest.
  split; [assumption|]. split; [reflexivity|].
  split; [apply Hsplit|]. now apply greedy_product.
Qed.

Lemma chain_product_exact_witness :
  0 < Q2Qc 3 /\
  exists chain k_up k_down rest,
    chain_of (Q2Qc 3) chain /\
    chain = repeat 2.0 k_up ++ repeat 0.5 k_down ++ [rest] /\
    rest * 2.0 ^ k_up = Q2Qc 3 * 2.0 ^ k_down /\
    chain_product chain = Q2Qc 3.
Proof.
  split; [reflexivity | apply (chain_product_exact (Q2Qc 3)); reflexivity].
Defined.

(** C1.  For every speed factor [s > 0] the product of the stage
    multipliers of the chain is within 1e-6 of [s]. *)
Theorem chain_product_within_tolerance (s : Qc) :
  0 < s ->
  exists chain, chain_of s chain /\ [chain_product chain - s] <= 1e-6.
Proof.
  intros Hpos.
  destruct (tempo_chain_shape s Hpos) as (k1 & k2 & rest & Hsplit & Hchain).
  eexists. split; [eassumption|].
  rewrite (greedy_product _ _ _ _ Hsplit).
  replace (s - s) with 0 by ring. discriminate.
Qed.

Lemma chain_product_within_tolerance_witness :
  0 < Q2Qc 3 /\
  exists chain,
    chain_of (Q2Qc 3) chain /\ [chain_product chain - Q2Qc 3] <= 1e-6.
Proof.
  split; [reflexivity|].
  apply (chain_product_within_tolerance (Q2Qc 3)). reflexivity.
Defined.

(** C2.  For every speed factor [s > 0] every stage multiplier of the
    chain lies in the closed band 0.5 .. 2.0; the chain ends with the
    remainder of the loops, which lies in the band in particular. *)
Theorem chain_in_band (s : Qc) :
  0 < s ->
  exists chain front rest,
    chain_of s chain /\ chain = front ++ [rest] /\
    in_band rest /\ Forall in_band chain.
Proof.
  intros Hpos.
  destruct (tempo_chain_shape s Hpos) as (k1 & k2 & rest & Hsplit & Hchain).
  exists (repeat 2.0 k1 ++ repeat 0.5 k2 ++ [rest]),
         (repeat 2.0 k1 ++ repeat 0.5 k2), rest.
  split; [assumption|]. split; [now rewrite <- app_assoc|].
  split; [apply Hsplit|]. exact (greedy_band _ _ _ _ Hsplit).
Qed.

Lemma chain_in_band_witness :
  0 < Q2Qc (1 # 10) /\
  exists chain front rest,
    chain_of (Q2Qc (1 # 10)) chain /\ chain = front ++ [rest] /\
    in_band rest /\ Forall in_band chain.
Proof.
  split; [reflexivity | apply (chain_in_band (Q2Qc (1 # 10))); reflexivity].
Defined.

(** Inside the band neither loop runs. *)
Lemma tempo_chain_in_band (s : Qc) (fuel : nat) :
  in_band s -> tempo_chain fuel s = Some [s]%list.
Proof.
  intros [Hlo Hhi]. unfold tempo_chain, build.
  change (@two Qc exact) with 2.0. change (@half Qc exact) with 0.5.
  rewrite speed_up_exit by assumption.
  now rewrite slow_down_exit by assumption.
Qed.

(** C3.  For a speed factor [s] with [0.5 <= s <= 2.0] the chain has
    exactly one element, and that element is [s]; neither loop runs, so
    no fuel is needed. *)
Theorem chain_of_band_input (s : Qc) :
  0.5 <= s <= 2.0 ->
  forall fuel, tempo_chain fuel s = Some [s]%list.
Proof. intros Hband fuel. now apply tempo_chain_in_band. Qed.

Lemma chain_of_band_input_witness :
  0.5 <= Q2Qc (3 # 2) <= 2.0 /\
  forall fuel, tempo_chain fuel (Q2Qc (3 # 2)) = Some [Q2Qc (3 # 2)]%list.
Proof.
  split; [split; discriminate|].
  apply (chain_of_band_input (Q2Qc (3 # 2))). split; discriminate.
Defined.

(** C9.  For every speed factor [s > 0] the chain is not empty, it never
    holds both a 2.0 stage and a 0.5 stage, and every element but the
    last is 2.0 when [s > 2.0] and 0.5 when [s < 0.5]. *)
Theorem chain_shape (s : Qc) :
  0 < s ->
  exists chain,
    chain_of s chain /\ chain <> [] /\
    ~ (In 2.0 chain /\ In 0.5 chain) /\
    (2.0 < s -> Forall (eq 2.0) (removelast chain)) /\
    (s < 0.5 -> Forall (eq 0.5) (removelast chain)).
Proof.
  intros Hpos.
  destruct (tempo_chain_shape s Hpos)
    as (k1 & k2 & rest & (Heq & Hband & Hup & Hdown) & Hchain).
  exists (repeat 2.0 k1 ++ repeat 0.5 k2 ++ [rest]).
  split; [assumption|].
  assert (Hlast : removelast (repeat 2.0 k1 ++ repeat 0.5 k2 ++ [rest])
                  = repeat 2.0 k1 ++ repeat 0.5 k2)
    by (now rewrite app_assoc, removelast_last).
  rewrite Hlast. split; [|split; [|split]].
  - intros H. apply (f_equal (@List.length Qc)) in H.
    rewrite !List.length_app in H. simpl in H. lia.
  - intros [Htwo Hhalf].
    rewrite !in_app_iff in Htwo, Hhalf.
    assert (Hrest2 : k1 = O -> rest = 2.0).
    { intros ->. destruct Htwo as [[]|[Hin|[<-|[]]]]; [|reflexivity].
      apply repeat_spec in Hin. discriminate. }
    assert (Hrest5 : k2 = O -> rest = 0.5).
    { intros ->. destruct Hhalf as [Hin|[[]|[<-|[]]]]; [|reflexivity].
      apply repeat_spec in Hin. discriminate. }
    destruct k1 as [|k1], k2 as [|k2].
    + rewrite Hrest2 in Hrest5 by reflexivity.
      specialize (Hrest5 eq_refl). discriminate.
    + destruct Hdown as [_ Hlt]; [discriminate|].
      rewrite Hrest2 in Hlt by reflexivity. discriminate.
    + destruct Hup as [_ Hgt]; [discriminate|].
      rewrite Hrest5 in Hgt by reflexivity. discriminate.
    + destruct Hup as [Hk _]; discriminate.
  - intros Hs. destruct k2 as [|k2].
    + rewrite app_nil_r. apply Forall_forall. intros m Hm.
      now apply repeat_spec in Hm.
    + exfalso. destruct Hdown as [-> Hlt]; [discriminate|].
      simpl in Heq. pose proof (pow2_ge_1 k2).
      clear - Heq Hlt Hs H. to_Q. nra.
  - intros Hs. destruct k1 as [|k1].
    + apply Forall_forall. intros m Hm. now apply repeat_spec in Hm.
    + exfalso. destruct Hup as [-> Hgt]; [discriminate|].
      simpl in Heq. pose proof (pow2_ge_1 k1).
      clear - Heq Hgt Hs H. to_Q. nra.
Qed.

Lemma chain_shape_witness :
  0 < Q2Qc 8 /\
  exists chain,
    chain_of (Q2Qc 8) chain /\ chain <> [] /\
    ~ (In 2.0 chain /\ In 0.5 chain) /\
    (2.0 < Q2Qc 8 -> Forall (eq 2.0) (removelast chain)) /\
    (Q2Qc 8 < 0.5 -> Forall (eq 0.5) (removelast chain)).
Proof.
  split; [reflexivity | apply (chain_shape (Q2Qc 8)); reflexivity].
Defined.

(** The iteration counts are logarithmic in the speed factor. *)
Lemma greedy_counts (s : Qc) (k_up k_down : nat) (rest : Qc) :
  0 < s -> greedy_split s k_up k_down rest ->
  (k_up <> O -> 2.0 ^ k_up < s) /\ s <= 2.0 * 2.0 ^ k_up /\
  (k_down <> O -> s * 2.0 ^ k_down < 1) /\ 0.5 <= s * 2.0 ^ k_down.
Proof.
  intros Hpos (Heq & Hband & Hup & Hdown).
  pose proof (pow2_ge_1 k_up) as Hp1. pose proof (pow2_ge_1 k_down) as Hp2.
  split; [|split; [|split]].
  - intros Hk. destruct (Hup Hk) as [-> Hgt]. simpl in Heq.
    clear - Heq Hgt Hp1. to_Q. nra.
  - clear - Hpos Heq Hband Hp1 Hp2. to_Q. nra.
  - intros Hk. destruct (Hdown Hk) as [-> Hlt]. simpl in Heq.
    clear - Heq Hlt Hp2. to_Q. nra.
  - clear - Hpos Heq Hband Hp1 Hp2. to_Q. nra.
Qed.

(** C5.  For every speed factor [s > 0] the call terminates: the first
    loop runs exactly [k_up] times and the second exactly [k_down] times,
    and with any fuel from [max k_up k_down] on the call returns the
    finite chain of these [k_up + k_down] stages and the remainder.  The
    counts are logarithmic in [s]: [2^k_up < s <= 2 * 2^k_up] when the
    first loop runs at all and [1/2 <= s * 2^k_down < 1] when the second
    does. *)
Theorem atempo_chain_terminates (float_str : Qc -> string) (s : Qc) :
  0 < s ->
  exists k_up k_down rest,
    iterations "atempo=2.0"%string "atempo=0.5"%string s k_up k_down /\
    (forall fuel, (Nat.max k_up k_down <= fuel)%nat ->
       atempo_chain float_str fuel s
       = Some (String.concat ","
                 (repeat "atempo=2.0"%string k_up
                  ++ repeat "atempo=0.5"%string k_down
                  ++ [stage_token float_str rest]))) /\
    (k_up <> O -> 2.0 ^ k_up < s) /\ s <= 2.0 * 2.0 ^ k_up /\
    (k_down <> O -> s * 2.0 ^ k_down < 1) /\ 0.5 <= s * 2.0 ^ k_down.
Proof.
  intros Hpos.
  destruct (build_total "atempo=2.0"%string "atempo=0.5"%string
              (stage_token float_str) s Hpos)
    as (k1 & k2 & rest & Hit & Hsplit & Hrun).
  exists k1, k2, rest. split; [assumption|].
  split; [intros fuel Hfuel; unfold atempo_chain; now rewrite Hrun|].
  now apply greedy_counts with rest.
Qed.

Lemma atempo_chain_terminates_witness :
  0 < Q2Qc 5 /\
  exists k_up k_down rest,
    iterations "atempo=2.0"%string "atempo=0.5"%string (Q2Qc 5) k_up k_down /\
    (forall fuel, (Nat.max k_up k_down <= fuel)%nat ->
       atempo_chain decimal_str fuel (Q2Qc 5)
       = Some (String.concat ","
                 (repeat "atempo=2.0"%string k_up
                  ++ repeat "atempo=0.5"%string k_down
                  ++ [stage_token decimal_str rest]))) /\
    (k_up <> O -> 2.0 ^ k_up < Q2Qc 5) /\ Q2Qc 5 <= 2.0 * 2.0 ^ k_up /\
    (k_down <> O -> Q2Qc 5 * 2.0 ^ k_down < 1) /\
    0.5 <= Q2Qc 5 * 2.0 ^ k_down.
Proof.
  split; [reflexivity|].
  apply (atempo_chain_terminates decimal_str (Q2Qc 5)). reflexivity.
Defined.

(** C7.  For every speed factor [s > 0] the value returned is the
    comma-joined string of the stages of the chain, in the order they
    were emitted, each written as the token [atempo=<value>].  The
    literal stages of the source are written [2.0] and [0.5], as Python
    writes these two floats. *)
Theorem atempo_chain_format (float_str : Qc -> string) (s : Qc) :
  float_str 2.0 = "2.0"%string -> float_str 0.5 = "0.5"%string ->
  0 < s ->
  exists chain,
    chain_of s chain /\
    returns float_str s
      (String.concat "," (map (fun m => "atempo=" ++ float_str m)%string chain)).
Proof.
  intros Htwo Hhalf Hpos.
  destruct (tempo_chain_shape s Hpos) as (k1 & k2 & rest & _ & fuel & Hrun).
  eexists. split; [exists fuel; eassumption|].
  exists fuel. unfold atempo_chain.
  rewrite build_map, Hrun.
  - reflexivity.
  - unfold stage_token. change (@two Qc exact) with 2.0. now rewrite Htwo.
  - unfold stage_token. change (@half Qc exact) with 0.5. now rewrite Hhalf.
Qed.

Lemma atempo_chain_format_witness :
  decimal_str 2.0 = "2.0"%string /\ decimal_str 0.5 = "0.5"%string /\
  0 < Q2Qc 3 /\
  exists chain,
    chain_of (Q2Qc 3) chain /\
    returns decimal_str (Q2Qc 3)
      (String.concat ","
         (map (fun m => "atempo=" ++ decimal_str m)%string chain)).
Proof.
  split; [reflexivity|]. split; [reflexivity|]. split; [reflexivity|].
  apply (atempo_chain_format decimal_str (Q2Qc 3)); reflexivity.
Defined.

(** ** The scenario table *)

Lemma chain_of_functional {F : Type} `{PyFloat F} (s : F) (c c' : list F) :
  chain_of s c -> chain_of s c' -> c = c'.
Proof. intros [n Hn] [m Hm]. exact (build_functional _ _ _ _ _ _ _ _ Hn Hm). Qed.

Lemma chain_of_exact (fuel : nat) (s : Qc) (c c' : list Qc) :
  tempo_chain fuel s = Some c' ->
  Forall2 (fun a b : Qc => (this a == this b)%Q) c' c ->
  chain_of s c.
Proof.
  intros Hrun Heq. exists fuel. rewrite Hrun. f_equal. clear Hrun.
  induction Heq as [|a b c' c Hab _ IH]; [reflexivity|].
  f_equal; [now apply Qc_is_canon | assumption].
Qed.

Ltac run_exact fuel :=
  apply (chain_of_exact fuel) with (1 := eq_refl);
  repeat constructor.

Ltac run_binary64 fuel := exists fuel; vm_compute; reflexivity.

(** C4.  The chains of the scenario table: 1.0 gives [1.0], 2.0 gives
    [2.0], 0.5 gives [0.5], 4.0 gives [2.0, 2.0], 8.0 gives
    [2.0, 2.0, 2.0], 0.25 gives [0.5, 0.5] and 3.0 gives [2.0, 1.5]; over
    the exact rationals and over IEEE doubles alike. *)
Theorem scenario_table :
  (chain_of (Q2Qc 1) [Q2Qc 1]%list /\
   chain_of (Q2Qc 2) [2.0]%list /\
   chain_of (Q2Qc (1 # 2)) [0.5]%list /\
   chain_of (Q2Qc 4) [2.0; 2.0] /\
   chain_of (Q2Qc 8) [2.0; 2.0; 2.0] /\
   chain_of (Q2Qc (1 # 4)) [0.5; 0.5] /\
   chain_of (Q2Qc 3) [2.0; Q2Qc (3 # 2)])
  /\
  (chain_of (Binary64.of_ratio 1 1) [Binary64.of_ratio 1 1]%list /\
   chain_of (Binary64.of_ratio 2 1) [Binary64.of_ratio 2 1]%list /\
   chain_of (Binary64.of_ratio 1 2) [Binary64.of_ratio 1 2]%list /\
   chain_of (Binary64.of_ratio 4 1)
     [Binary64.of_ratio 2 1; Binary64.of_ratio 2 1] /\
   chain_of (Binary64.of_ratio 8 1)
     [Binary64.of_ratio 2 1; Binary64.of_ratio 2 1; Binary64.of_ratio 2 1] /\
   chain_of (Binary64.of_ratio 1 4)
     [Binary64.of_ratio 1 2; Binary64.of_ratio 1 2] /\
   chain_of (Binary64.of_ratio 3 1)
     [Binary64.of_ratio 2 1; Binary64.of_ratio 3 2]).
Proof.
  split.
  - repeat split.
    + run_exact 0%nat.
    + run_exact 0%nat.
    + run_exact 0%nat.
    + run_exact 1%nat.
    + run_exact 2%nat.
    + run_exact 1%nat.
    + run_exact 1%nat.
  - repeat split.
    + run_binary64 0%nat.
    + run_binary64 0%nat.
    + run_binary64 0%nat.
    + run_binary64 1%nat.
    + run_binary64 2%nat.
    + run_binary64 1%nat.
    + run_binary64 1%nat.
Qed.

(** The strings the source returns for the table, with [decimal_str] as
    the formatter. *)
Example scenario_strings :
  atempo_chain decimal_str 0 (Q2Qc 1) = Some "atempo=1.0"%string /\
  atempo_chain decimal_str 1 (Q2Qc 4) = Some "atempo=2.0,atempo=2.0"%string /\
  atempo_chain decimal_str 2 (Q2Qc 8)
  = Some "atempo=2.0,atempo=2.0,atempo=2.0"%string /\
  atempo_chain decimal_str 1 (Q2Qc (1 # 4))
  = Some "atempo=0.5,atempo=0.5"%string /\
  atempo_chain decimal_str 1 (Q2Qc 3) = Some "atempo=2.0,atempo=1.5"%string.
Proof. repeat split. Qed.

(** ** The function on the heap *)

(** [append] changes the object it is given, in place ... *)
Lemma heap_append_at (h : heap) (r : ref) (l : list string) (x : string) :
  nth_error h r = Some l ->
  nth_error (heap_append h r x) r = Some (l ++ [x]%list).
Proof.
  revert r. induction h as [|l0 h IH]; intros [|r] Hr; try discriminate.
  - injection Hr as ->. reflexivity.
  - simpl. now apply IH.
Qed.

(** ... and no other object. *)
Lemma heap_append_frame (h : heap) (r r' : ref) (x : string) :
  r' <> r -> nth_error (heap_append h r x) r' = nth_error h r'.
Proof.
  revert r r'. induction h as [|l0 h IH]; intros [|r] [|r'] Hne;
    try reflexivity; [contradiction|].
  simpl. apply IH. congruence.
Qed.

Lemma heap_append_last (h : heap) (own : list string) (x : string) :
  heap_append (h ++ [own]%list) (List.length h) x
  = (h ++ [own ++ [x]%list]%list)%list.
Proof. induction h as [|l h IH]; simpl; [reflexivity|]. now rewrite IH. Qed.

Section OnHeapFacts.
Context {F : Type} `{PyFloat F}.
Variable float_str : F -> string.

(** While the reference [tempos] is to the newest object of the heap, the
    loops change that object as the loops of [build] change their list,
    and leave the heap below it alone. *)
Lemma speed_up_heap_own (fuel : nat) : forall (h : heap) own (sf : F),
  speed_up_heap fuel (h ++ [own]%list) (List.length h) sf
  = option_map (fun locals => ((h ++ [fst locals]%list)%list, snd locals))
      (speed_up "atempo=2.0"%string fuel own sf).
Proof.
  induction fuel as [|fuel IH]; intros h own sf; cbn [speed_up_heap speed_up];
    destruct (gtb sf two); try reflexivity.
  now rewrite heap_append_last, IH.
Qed.

Lemma slow_down_heap_own (fuel : nat) : forall (h : heap) own (sf : F),
  slow_down_heap fuel (h ++ [own]%list) (List.length h) sf
  = option_map (fun locals => ((h ++ [fst locals]%list)%list, snd locals))
      (slow_down "atempo=0.5"%string fuel own sf).
Proof.
  induction fuel as [|fuel IH]; intros h own sf; cbn [slow_down_heap slow_down];
    destruct (ltb sf half); try reflexivity.
  now rewrite heap_append_last, IH.
Qed.

(** A call on the heap [h] returns what [atempo_chain] returns and leaves
    [h] with one more object, the list of the call. *)
Lemma atempo_chain_heap_build (fuel : nat) (h : heap) (sf : F) :
  atempo_chain_heap float_str fuel h sf
  = option_map (fun tempos => ((h ++ [tempos]%list)%list, String.concat "," tempos))
      (build "atempo=2.0"%string "atempo=0.5"%string (stage_token float_str)
         fuel sf).
Proof.
  unfold atempo_chain_heap, heap_new, build.
  rewrite speed_up_heap_own.
  destruct (speed_up "atempo=2.0"%string fuel nil sf) as [[t1 s1]|];
    [|reflexivity].
  cbn [option_map fst snd]. rewrite slow_down_heap_own.
  destruct (slow_down "atempo=0.5"%string fuel t1 s1) as [[t2 s2]|];
    [|reflexivity].
  cbn [option_map fst snd]. rewrite heap_append_last. unfold heap_join.
  rewrite nth_error_app2, Nat.sub_diag by apply Nat.le_refl.
  reflexivity.
Qed.
End OnHeapFacts.

(** C8.  The function is deterministic and has no side effect.  For every
    speed factor [s > 0] there is one result [out]: a call returns it on
    every heap, so also on the heap an earlier call has left, and a call
    that returns has returned [out].  The one list object a call
    changes is the one it has made itself: after the call the heap is
    the heap before it, every object as it was, and that new list, to
    which the call returns no reference. *)
Theorem atempo_chain_pure (float_str : Qc -> string) (s : Qc) :
  0 < s ->
  exists out,
    returns float_str s out /\
    (forall h, exists fuel own,
       atempo_chain_heap float_str fuel h s = Some ((h ++ [own]%list)%list, out)) /\
    (forall fuel h h' out',
       atempo_chain_heap float_str fuel h s = Some (h', out') ->
       out' = out /\
       (exists own, h' = (h ++ [own]%list)%list) /\
       (forall r l, nth_error h r = Some l -> nth_error h' r = Some l)).
Proof.
  intros Hpos.
  destruct (build_terminates "atempo=2.0"%string "atempo=0.5"%string
              (stage_token float_str) s Hpos) as (fuel & tempos & Hrun).
  exists (String.concat "," tempos).
  split; [exists fuel; unfold atempo_chain; now rewrite Hrun|].
  split.
  - intros h. exists fuel, tempos.
    now rewrite atempo_chain_heap_build, Hrun.
  - intros fuel' h h' out' Hcall. rewrite atempo_chain_heap_build in Hcall.
    destruct (build "atempo=2.0"%string "atempo=0.5"%string
                (stage_token float_str) fuel' s) as [tempos'|] eqn:Hrun';
      [|discriminate].
    injection Hcall as <- <-.
    rewrite (build_functional _ _ _ _ _ _ _ _ Hrun' Hrun).
    split; [reflexivity|]. split; [now exists tempos|].
    intros r l Hr. rewrite nth_error_app1; [assumption|].
    apply nth_error_Some. congruence.
Qed.

Lemma atempo_chain_pure_witness :
  0 < Q2Qc 3 /\
  exists out,
    returns decimal_str (Q2Qc 3) out /\
    (forall h, exists fuel own,
       atempo_chain_heap decimal_str fuel h (Q2Qc 3)
       = Some ((h ++ [own]%list)%list, out)) /\
    (forall fuel h h' out',
       atempo_chain_heap decimal_str fuel h (Q2Qc 3) = Some (h', out') ->
       out' = out /\
       (exists own, h' = (h ++ [own]%list)%list) /\
       (forall r l, nth_error h r = Some l -> nth_error h' r = Some l)).
Proof.
  split; [reflexivity|].
  apply (atempo_chain_pure decimal_str (Q2Qc 3)). reflexivity.
Defined.

(** ** The length of the chain *)

Lemma this_pow2 (k : Z) : (this (pow2 k) == 2 ^ k)%Q.
Proof. apply Qred_correct. Qed.

Lemma pow2_nat (n : nat) : pow2 (Z.of_nat n) = 2.0 ^ n.
Proof.
  induction n as [|n IH]; [now apply Qc_is_canon|].
  rewrite pow2_succ, <- IH. apply Qc_is_canon.
  rewrite this_mult, !this_pow2, Nat2Z.inj_succ, <- Z.add_1_l.
  rewrite Qpower_plus by discriminate. reflexivity.
Qed.

Lemma pow2_pred_nat (n : nat) : 2.0 * pow2 (Z.of_nat n - 1) = 2.0 ^ n.
Proof.
  rewrite <- pow2_nat. apply Qc_is_canon.
  rewrite this_mult, !this_pow2.
  replace (Z.of_nat n) with (1 + (Z.of_nat n - 1))%Z at 2 by lia.
  rewrite Qpower_plus by discriminate. reflexivity.
Qed.

(** The ceiling of the binary logarithm is unique. *)
Lemma ceil_log2_unique (x : Qc) (k k' : Z) :
  ceil_log2 x k -> ceil_log2 x k' -> k = k'.
Proof.
  assert (Hle : forall j j', ceil_log2 x j -> ceil_log2 x j' -> (j <= j')%Z).
  { intros j j' [Hlo _] [_ Hhi].
    assert (Hlt : pow2 (j - 1) < pow2 j') by (eapply Qclt_le_trans; eassumption).
    unfold Qclt in Hlt. rewrite !this_pow2 in Hlt.
    apply Qpower_lt_compat_l_inv in Hlt; [lia|reflexivity]. }
  intros H H'. apply Z.le_antisymm; now apply Hle.
Qed.

(** The formula of the specification gives the number of stages, except
    at [s = 1]. *)
Lemma greedy_ceil_log2 (s : Qc) (k_up k_down : nat) (rest : Qc) :
  0 < s -> s <> 1 -> greedy_split s k_up k_down rest ->
  ceil_log2 (Qcmax s (/ s) / 2.0) (Z.of_nat (k_up + k_down)).
Proof.
  intros Hpos Hone Hsplit.
  destruct (greedy_counts _ _ _ _ Hpos Hsplit) as (Hup1 & Hup2 & Hdn1 & Hdn2).
  destruct Hsplit as (Heq & Hband & Hup & Hdown).
  assert (Hinv : s * / s = 1)
    by (apply Qcmult_inv_r; intros ->; discriminate).
  assert (Hne : s < 1 \/ 1 < s).
  { destruct (Qc_dec s 1) as [[H|H]|H]; [now left|now right|contradiction]. }
  pose proof (pow2_pred_nat (k_up + k_down)) as Hpred.
  rewrite <- pow2_nat in Hpred.
  unfold ceil_log2.
  set (lo := pow2 (Z.of_nat (k_up + k_down) - 1)) in *.
  set (hi := pow2 (Z.of_nat (k_up + k_down))) in *.
  assert (Hhi : hi = 2.0 ^ k_up * 2.0 ^ k_down).
  { unfold hi. rewrite pow2_nat. clear. induction k_up as [|k IH].
    - simpl. now rewrite Qcmult_1_l.
    - simpl Nat.add. rewrite !pow2_succ, IH. ring. }
  clearbody lo hi. set (i := / s) in *. clearbody i.
  unfold Qcmax. destruct (Qclt_le_dec s i) as [Hlt|Hge].
  - (* below 1: the inverse is the larger *)
    assert (Hs : s < 1) by (clear - Hlt Hinv Hpos Hne; to_Q; nra).
    destruct k_up as [|k_up].
    2: { exfalso. pose proof (pow2_ge_1 (S k_up)).
         specialize (Hup1 ltac:(discriminate)).
         clear - Hup1 H Hs. to_Q. nra. }
    simpl in Hhi. rewrite Qcmult_1_l in Hhi. clear Hup Hup1 Hup2.
    destruct k_down as [|k_down].
    + simpl in *. clear - Hs Hpos Hinv Hpred Hhi Hdn2. to_Q. nra.
    + specialize (Hdn1 ltac:(discriminate)).
      pose proof (pow2_pos (S k_down)).
      clear - Hs Hpos Hinv Hpred Hhi Hdn1 Hdn2 H. to_Q. nra.
  - (* above 1 *)
    assert (Hs : 1 < s) by (clear - Hge Hinv Hpos Hne; to_Q; nra).
    destruct k_down as [|k_down].
    2: { exfalso. pose proof (pow2_ge_1 (S k_down)).
         specialize (Hdn1 ltac:(discriminate)).
         clear - Hdn1 H Hs. to_Q. nra. }
    simpl in Hhi. rewrite Qcmult_1_r in Hhi. clear Hdown Hdn1 Hdn2.
    destruct k_up as [|k_up].
    + simpl in *. clear - Hs Hpos Hinv Hpred Hhi Hup2. to_Q. nra.
    + specialize (Hup1 ltac:(discriminate)).
      clear - Hs Hpos Hinv Hpred Hhi Hup1 Hup2. to_Q. nra.
Qed.

(** A chain is only returned for a positive speed factor. *)
Lemma greedy_split_pos (s : Qc) (k_up k_down : nat) (rest : Qc) :
  greedy_split s k_up k_down rest -> 0 < s.
Proof.
  intros (Heq & Hband & _).
  pose proof (pow2_pos k_up). pose proof (pow2_pos k_down).
  clear - Heq Hband H H0. to_Q. nra.
Qed.

(** Further from the band, the chain is never shorter. *)
Lemma greedy_length_mono (s s' : Qc) (k_up k_down k_up' k_down' : nat)
    (rest rest' : Qc) :
  greedy_split s k_up k_down rest -> greedy_split s' k_up' k_down' rest' ->
  (2.0 <= s /\ s <= s') \/ (s' <= s /\ s <= 0.5) ->
  (k_up + k_down <= k_up' + k_down')%nat.
Proof.
  intros Hsplit Hsplit' Hfar.
  pose proof (greedy_split_pos _ _ _ _ Hsplit) as Hpos.
  pose proof (greedy_split_pos _ _ _ _ Hsplit') as Hpos'.
  destruct (greedy_counts _ _ _ _ Hpos Hsplit) as (Hup1 & Hup2 & Hdn1 & Hdn2).
  destruct (greedy_counts _ _ _ _ Hpos' Hsplit')
    as (Hup1' & Hup2' & Hdn1' & Hdn2').
  destruct Hfar as [[Hs Hss]|[Hss Hs]].
  - destruct k_down as [|k_down].
    2: { exfalso. specialize (Hdn1 ltac:(discriminate)).
         pose proof (pow2_ge_1 (S k_down)). clear - Hdn1 Hs H. to_Q. nra. }
    destruct k_up as [|k_up]; [lia|].
    specialize (Hup1 ltac:(discriminate)).
    assert (Hlt : 2.0 ^ S k_up < 2.0 ^ S k_up').
    { rewrite (pow2_succ k_up'). clear - Hup1 Hss Hup2'. to_Q. lra. }
    apply pow2_lt_inv in Hlt. lia.
  - destruct k_up as [|k_up].
    2: { exfalso. specialize (Hup1 ltac:(discriminate)).
         pose proof (pow2_ge_1 (S k_up)). clear - Hup1 Hs H. to_Q. nra. }
    destruct k_down as [|k_down]; [lia|].
    specialize (Hdn1 ltac:(discriminate)).
    assert (Hlt : 2.0 ^ S k_down < 2.0 ^ S k_down').
    { rewrite (pow2_succ k_down'). pose proof (pow2_pos k_down').
      pose proof (pow2_pos (S k_down)).
      clear - Hdn1 Hss Hdn2' Hpos Hpos' H H0. to_Q. nra. }
    apply pow2_lt_inv in Hlt. lia.
Qed.

(** C6, as the code has it.  For every speed factor [s > 0] other than 1
    the chain has exactly [ceil(log2(max(s, 1/s) / 2)) + 1] stages; at
    [s = 1] it has one stage where the formula gives none; and the length
    never decreases as [s] moves away from the band 0.5 .. 2.0, on either
    side. *)
Theorem chain_length_formula (s : Qc) :
  0 < s ->
  exists chain,
    chain_of s chain /\
    (s <> 1 -> formula_length s (Z.of_nat (List.length chain))) /\
    (s = 1 -> List.length chain = 1%nat /\ formula_length s 0) /\
    (forall s' chain',
       chain_of s' chain' ->
       (2.0 <= s /\ s <= s') \/ (s' <= s /\ s <= 0.5) ->
       (List.length chain <= List.length chain')%nat).
Proof.
  intros Hpos.
  destruct (tempo_chain_shape s Hpos) as (k1 & k2 & rest & Hsplit & Hchain).
  exists (repeat 2.0 k1 ++ repeat 0.5 k2 ++ [rest]).
  split; [assumption|].
  assert (Hlen : forall a b (r : Qc),
    List.length (repeat 2.0 a ++ repeat 0.5 b ++ [r]) = (a + b + 1)%nat).
  { intros. rewrite !List.length_app, !repeat_length. simpl. lia. }
  rewrite Hlen. split; [|split].
  - intros Hone. exists (Z.of_nat (k1 + k2)).
    split; [now apply greedy_ceil_log2 with rest|lia].
  - intros ->. pose proof (tempo_chain_in_band 1 O ltac:(split; discriminate))
      as Hrun.
    assert (Hsame : (repeat 2.0 k1 ++ repeat 0.5 k2 ++ [rest]) = [Q2Qc 1]%list)
      by (apply (chain_of_functional (Q2Qc 1)); [assumption|now exists O]).
    apply (f_equal (@List.length Qc)) in Hsame. rewrite Hlen in Hsame.
    split; [exact Hsame|].
    exists (-1)%Z. split; [|reflexivity]. split; [reflexivity|discriminate].
  - intros s' chain' [fuel' Hrun'] Hfar.
    apply build_spec in Hrun'
      as (k1' & k2' & rest' & _ & _ & _ & -> & Hsplit').
    rewrite Hlen.
    pose proof (greedy_length_mono _ _ _ _ _ _ _ _ Hsplit Hsplit' Hfar). lia.
Qed.

Lemma chain_length_formula_witness :
  0 < Q2Qc 5 /\
  exists chain,
    chain_of (Q2Qc 5) chain /\
    (Q2Qc 5 <> 1 -> formula_length (Q2Qc 5) (Z.of_nat (List.length chain))) /\
    (Q2Qc 5 = 1 -> List.length chain = 1%nat /\ formula_length (Q2Qc 5) 0) /\
    (forall s' chain',
       chain_of s' chain' ->
       (2.0 <= Q2Qc 5 /\ Q2Qc 5 <= s') \/ (s' <= Q2Qc 5 /\ Q2Qc 5 <= 0.5) ->
       (List.length chain <= List.length chain')%nat).
Proof.
  split; [reflexivity | apply (chain_length_formula (Q2Qc 5)); reflexivity].
Defined.

(** C6, as the specification states it, fails: the length is not strictly
    increasing away from the band.  3.0 and 4.0 both lie above the band,
    4.0 further away, and both chains have two stages. *)
Lemma chain_length_not_strictly_increasing :
  2.0 <= Q2Qc 3 /\ Q2Qc 3 < Q2Qc 4 /\
  chain_of (Q2Qc 3) [2.0; Q2Qc (3 # 2)] /\
  chain_of (Q2Qc 4) [2.0; 2.0] /\
  ~ (List.length [2.0%Qc; Q2Qc (3 # 2)]
     < List.length [2.0%Qc; 2.0%Qc])%nat.
Proof.
  split; [discriminate|]. split; [reflexivity|].
  split; [run_exact 1%nat|]. split; [run_exact 1%nat|].
  simpl. lia.
Qed.

(** * More of the code: the function outside its contract, and the script *)

(** X1.  The call returns exactly on the positive speed factors: on
    [s <= 0] the second loop doubles [s] for ever. *)
Theorem atempo_chain_returns_iff (float_str : Qc -> string) (s : Qc) :
  (exists out, returns float_str s out) <-> 0 < s.
Proof.
  split.
  - intros (out & fuel & Hrun).
    destruct (Qclt_le_dec 0 s) as [Hpos|Hneg]; [assumption|].
    now rewrite atempo_chain_diverges in Hrun.
  - intros Hpos.
    destruct (build_terminates "atempo=2.0"%string "atempo=0.5"%string
                (stage_token float_str) s Hpos) as (fuel & tempos & Hrun).
    exists (String.concat "," tempos), fuel.
    unfold atempo_chain. now rewrite Hrun.
Qed.

(** X2.  The script calls the function exactly when a file is uploaded
    and the call returns: its test [speed_factor > 0] is the condition
    under which the loops stop. *)
Theorem should_process_iff (float_str : Qc -> string)
    (uploaded_file : bool) (sf : Qc) :
  Script.should_process uploaded_file sf = true <->
  uploaded_file = true /\ exists out, returns float_str sf out.
Proof.
  unfold Script.should_process. rewrite Bool.andb_true_iff.
  split; intros [Hfile Hsf]; (split; [assumption|]).
  - destruct (Qclt_le_dec 0 sf) as [Hpos|]; [|discriminate].
    destruct (build_terminates "atempo=2.0"%string "atempo=0.5"%string
                (stage_token float_str) sf Hpos) as (fuel & tempos & Hrun).
    exists (String.concat "," tempos), fuel.
    unfold atempo_chain. now rewrite Hrun.
  - destruct (Qclt_le_dec 0 sf) as [|Hneg]; [reflexivity|].
    destruct Hsf as (out & fuel & Hrun).
    now rewrite atempo_chain_diverges in Hrun.
Qed.

Lemma pow2_3 : 2.0 ^ 3 = Q2Qc 8.
Proof. apply Qc_is_canon. vm_compute. reflexivity. Qed.

Lemma pow2_4 : 2.0 ^ 4 = Q2Qc 16.
Proof. apply Qc_is_canon. vm_compute. reflexivity. Qed.

Lemma in_range_Q (s : Qc) :
  Script.in_range s -> (1 # 10 <= this s)%Q /\ (this s <= 8)%Q.
Proof. intros [Hlo Hhi]. split; [exact Hlo|exact Hhi]. Qed.

Lemma in_range_pos (s : Qc) : Script.in_range s -> 0 < s.
Proof. intros H. apply in_range_Q in H as [Hlo _]. unfold Qclt. simpl. lra. Qed.

(** Within the range of the widgets neither loop runs more than three
    times. *)
Lemma in_range_counts (s : Qc) (k_up k_down : nat) (rest : Qc) :
  Script.in_range s -> greedy_split s k_up k_down rest ->
  (k_up <= 2)%nat /\ (k_down <= 3)%nat /\ (k_up = O \/ k_down = O).
Proof.
  intros Hrange Hsplit.
  pose proof (in_range_pos s Hrange) as Hpos.
  apply in_range_Q in Hrange as [Hlo Hhi].
  destruct (greedy_counts _ _ _ _ Hpos Hsplit) as (Hup & _ & Hdown & _).
  destruct Hsplit as (_ & _ & Hup' & Hdown').
  repeat split.
  - destruct k_up as [|k]; [lia|]. specialize (Hup ltac:(discriminate)).
    assert (Hlt : 2.0 ^ S k < 2.0 ^ 3).
    { rewrite pow2_3. eapply Qclt_le_trans; [eassumption|exact Hhi]. }
    apply pow2_lt_inv in Hlt. lia.
  - destruct k_down as [|k]; [lia|]. specialize (Hdown ltac:(discriminate)).
    assert (Hlt : 2.0 ^ S k < 2.0 ^ 4).
    { rewrite pow2_4. pose proof (pow2_pos (S k)).
      unfold Qclt. change (this (Q2Qc 16)) with 16%Q.
      clear - Hlo Hdown H. to_Q. nra. }
    apply pow2_lt_inv in Hlt. lia.
  - destruct k_up as [|k]; [now left|right].
    now destruct Hup' as [-> _].
Qed.

Lemma speed_factor_cases (speed_manual speed_slider : Qc) :
  (1e-6 < [speed_manual - speed_slider] /\
   Script.speed_factor speed_manual speed_slider = speed_manual) \/
  ([speed_manual - speed_slider] <= 1e-6 /\
   Script.speed_factor speed_manual speed_slider = speed_slider).
Proof.
  unfold Script.speed_factor.
  destruct (Qclt_le_dec 1e-6 [speed_manual - speed_slider]); [left|right];
    now split.
Qed.

(** X3.  Whatever the two widgets deliver within their bounds, the speed
    factor the script picks is within 1e-6 of the manual input, lies in
    the same bounds, passes the script's test, and the function returns
    for it after at most three iterations of a loop, with a chain of at
    most four filters. *)
Theorem widget_speed_chain (float_str : Qc -> string)
    (speed_manual speed_slider : Qc) :
  Script.in_range speed_manual -> Script.in_range speed_slider ->
  let sf := Script.speed_factor speed_manual speed_slider in
  [sf - speed_manual] <= 1e-6 /\ Script.in_range sf /\
  Script.should_process true sf = true /\
  exists chain out,
    tempo_chain 3 sf = Some chain /\ (List.length chain <= 4)%nat /\
    atempo_chain float_str 3 sf = Some out.
Proof.
  intros Hm Hs sf.
  assert (Hclose : [sf - speed_manual] <= 1e-6).
  { subst sf. destruct (speed_factor_cases speed_manual speed_slider)
      as [[_ ->]|[Hle ->]].
    - replace (speed_manual - speed_manual) with 0 by ring. discriminate.
    - now rewrite Qcabs_Qcminus. }
  assert (Hrange : Script.in_range sf).
  { subst sf. now destruct (speed_factor_cases speed_manual speed_slider)
      as [[_ ->]|[_ ->]]. }
  pose proof (in_range_pos sf Hrange) as Hpos.
  split; [assumption|]. split; [assumption|]. split.
  { unfold Script.should_process.
    destruct (Qclt_le_dec 0 sf) as [|Hneg]; [reflexivity|].
    exfalso. exact (Qclt_not_le _ _ Hpos Hneg). }
  destruct (build_total 2.0 0.5 (fun m => m) sf Hpos)
    as (k1 & k2 & rest & _ & Hsplit & Hrun).
  destruct (build_total "atempo=2.0"%string "atempo=0.5"%string
              (stage_token float_str) sf Hpos)
    as (j1 & j2 & rest' & _ & Hsplit' & Hrun').
  destruct (in_range_counts _ _ _ _ Hrange Hsplit) as (H1 & H2 & H12).
  destruct (in_range_counts _ _ _ _ Hrange Hsplit') as (J1 & J2 & _).
  eexists. eexists. split; [apply Hrun; lia|]. split.
  - rewrite !List.length_app, !repeat_length. simpl. lia.
  - unfold atempo_chain. rewrite Hrun' by lia. reflexivity.
Qed.

Lemma widget_speed_chain_witness :
  Script.in_range (Q2Qc (1 # 10)) /\ Script.in_range (Q2Qc 1) /\
  let sf := Script.speed_factor (Q2Qc (1 # 10)) (Q2Qc 1) in
  [sf - Q2Qc (1 # 10)] <= 1e-6 /\ Script.in_range sf /\
  Script.should_process true sf = true /\
  exists chain out,
    tempo_chain 3 sf = Some chain /\ (List.length chain <= 4)%nat /\
    atempo_chain decimal_str 3 sf = Some out.
Proof.
  split; [split; discriminate|]. split; [split; discriminate|].
  apply (widget_speed_chain decimal_str (Q2Qc (1 # 10)) (Q2Qc 1));
    split; discriminate.
Defined.

(** ** The reciprocal of the speed factor, on doubles *)

Section Reciprocal.
Local Open Scope Z_scope.

Lemma digits2_pos_unique (p : positive) (d : Z) :
  0 < d -> 2 ^ (d - 1) <= Z.pos p < 2 ^ d -> Z.pos (digits2_pos p) = d.
Proof.
  intros Hd [Hlo Hhi].
  pose proof (Binary64Facts.digits2_pos_bounds p) as [Hlo' Hhi'].
  destruct (Z.lt_trichotomy (Z.pos (digits2_pos p)) d) as [Hlt|[Heq|Hgt]];
    [exfalso|assumption|exfalso].
  - assert (2 ^ Z.pos (digits2_pos p) <= 2 ^ (d - 1))
      by (apply Z.pow_le_mono_r; lia).
    lia.
  - assert (2 ^ d <= 2 ^ (Z.pos (digits2_pos p) - 1))
      by (apply Z.pow_le_mono_r; lia).
    lia.
Qed.

Lemma shr_record_of_loc_m (m : Z) (l : location) :
  shr_m (shr_record_of_loc m l) = m.
Proof. now destruct l as [|[]]. Qed.

Lemma loc_of_shr_record_of_loc (m : Z) (l : location) :
  loc_of_shr_record (shr_record_of_loc m l) = l.
Proof. now destruct l as [|[]]. Qed.

(** Rounding to nearest moves a quotient by at most half a divisor. *)
Lemma round_nearest_even_new_location (m q r : Z) :
  0 < m -> 0 <= r < m ->
  (round_nearest_even q (new_location m r) = q \/
   round_nearest_even q (new_location m r) = q + 1) /\
  2 * Z.abs (round_nearest_even q (new_location m r) * m - (q * m + r)) <= m.
Proof.
  intros Hm Hr. unfold new_location, new_location_even, new_location_odd.
  destruct (Z.even m) eqn:Heven.
  - destruct (Z.eqb_spec r 0) as [->|Hr0]; cbn [round_nearest_even].
    + split; [now left|lia].
    + destruct (Z.compare_spec (2 * r) m); cbn [round_nearest_even].
      * destruct (Z.even q); (split; [auto|lia]).
      * split; [auto|lia].
      * split; [auto|lia].
  - assert (Hodd : 2 * r <> m).
    { intros <-. rewrite Z.even_mul in Heven. discriminate. }
    destruct (Z.eqb_spec r 0) as [->|Hr0]; cbn [round_nearest_even].
    + split; [now left|lia].
    + destruct (Z.compare_spec (2 * r + 1) m); cbn [round_nearest_even];
        (split; [auto|lia]).
Qed.

(** Rounding a quotient of 53 bits: its mantissa is the nearest integer
    and its exponent stays, unless the mantissa rounds up to [2^53]. *)
Lemma binary_round_aux_normal (q : positive) (E : Z) (loc : location) :
  Z.pos (digits2_pos q) = 53 -> -1074 <= E <= 970 ->
  exists m' e',
    binary_round_aux Binary64.prec Binary64.emax false (Z.pos q) E loc
    = S754_finite false m' e' /\
    bounded Binary64.prec Binary64.emax m' e' = true /\
    (inject_Z (Z.pos m') * 2 ^ e'
     == inject_Z (round_nearest_even (Z.pos q) loc) * 2 ^ E)%Q.
Proof.
  intros Hd HE.
  assert (Hfirst : shr_fexp Binary64.prec Binary64.emax (Z.pos q) E loc
                   = (shr_record_of_loc (Z.pos q) loc, E)).
  { unfold shr_fexp. cbn [Zdigits2]. rewrite Hd.
    unfold fexp, emin, Binary64.prec, Binary64.emax.
    replace (Z.max (53 + E - 53) (3 - 1024 - 53) - E) with 0 by lia.
    reflexivity. }
  unfold binary_round_aux. rewrite Hfirst.
  rewrite shr_record_of_loc_m, loc_of_shr_record_of_loc.
  pose proof (Binary64Facts.mantissa_above q Hd) as Hlo.
  pose proof (Binary64Facts.mantissa_below q ltac:(lia)) as Hhi.
  assert (Hq' : round_nearest_even (Z.pos q) loc = Z.pos q \/
                round_nearest_even (Z.pos q) loc = Z.pos q + 1).
  { destruct loc as [|[]]; cbn [round_nearest_even]; auto.
    destruct (Z.even (Z.pos q)); auto. }
  set (q' := round_nearest_even (Z.pos q) loc) in *. clearbody q'.
  destruct (Z.eq_dec q' (2 ^ 53)) as [Hmax|Hbelow].
  - exists 4503599627370496%positive, (E + 1). subst q'.
    split; [|split].
    + unfold shr_fexp.
      replace (Zdigits2 (2 ^ 53)) with 54 by (vm_compute; reflexivity).
      unfold fexp, emin, Binary64.prec, Binary64.emax.
      replace (Z.max (54 + E - 53) (3 - 1024 - 53) - E) with 1 by lia.
      replace (shr (shr_record_of_loc (2 ^ 53) loc_Exact) E 1)
        with (Binary64.exact_record 4503599627370496, E + 1)
        by (vm_compute shr_record_of_loc; reflexivity).
      cbn [Binary64.exact_record shr_m].
      replace (E + 1 <=? 1024 - 53) with true by (symmetry; apply Z.leb_le; lia).
      reflexivity.
    + apply Binary64Facts.bounded_cases.
      replace (digits2_pos 4503599627370496) with 53%positive
        by (vm_compute; reflexivity).
      lia.
    + rewrite Qpower_plus by discriminate.
      replace (inject_Z (2 ^ 53)) with (inject_Z (Z.pos 4503599627370496) * 2 ^ 1)%Q
        by (vm_compute; reflexivity).
      ring.
  - assert (Hpos : 0 < q') by lia.
    destruct q' as [|qp|]; try lia.
    assert (Hd' : Z.pos (digits2_pos qp) = 53)
      by (apply digits2_pos_unique; [lia|]; change (2 ^ (53 - 1)) with (2 ^ 52); lia).
    exists qp, E. split; [|split].
    + unfold shr_fexp. cbn [Zdigits2]. rewrite Hd'.
      unfold fexp, emin, Binary64.prec, Binary64.emax.
      replace (Z.max (53 + E - 53) (3 - 1024 - 53) - E) with 0 by lia.
      cbn [shr shr_record_of_loc shr_m].
      replace (E <=? 1024 - 53) with true by (symmetry; apply Z.leb_le; lia).
      reflexivity.
    + apply Binary64Facts.bounded_cases. lia.
    + reflexivity.
Qed.

(** The double [1/x] of a normal double [x = m * 2^e]: a multiple [n] of
    [2^(-105-e)] with [n * m] within [m/2] of [2^105]. *)
Lemma video_scale_nearest (m : positive) (e : Z) :
  Z.pos (digits2_pos m) = 53 -> -1074 <= e <= 969 ->
  exists m' e' n,
    Script.video_scale (S754_finite false m e) = S754_finite false m' e' /\
    bounded Binary64.prec Binary64.emax m' e' = true /\
    (inject_Z (Z.pos m') * 2 ^ e' == inject_Z n * 2 ^ (-105 - e))%Q /\
    2 * Z.abs (n * Z.pos m - 2 ^ 105) <= Z.pos m.
Proof.
  intros Hd He.
  pose proof (Binary64Facts.mantissa_above m Hd) as Hlo.
  pose proof (Binary64Facts.mantissa_below m ltac:(lia)) as Hhi.
  unfold Script.video_scale, Script.one, SFdiv, SFdiv_core_binary.
  cbn [Zdigits2 xorb]. rewrite Hd.
  replace (Z.pos (digits2_pos 4503599627370496)) with 53
    by (vm_compute; reflexivity).
  unfold fexp, emin, Binary64.prec, Binary64.emax.
  replace (Z.min _ _) with (-105 - e) by lia.
  replace (-52 - e - (-105 - e)) with 53 by lia.
  replace (Z.shiftl 4503599627370496 53) with (2 ^ 105)
    by (vm_compute; reflexivity).
  pose proof (Z_div_mod (2 ^ 105) (Z.pos m) ltac:(lia)) as Hdiv.
  destruct (Z.div_eucl (2 ^ 105) (Z.pos m)) as [q r].
  destruct Hdiv as [Hqr Hr].
  destruct (round_nearest_even_new_location (Z.pos m) q r ltac:(lia) Hr)
    as [_ Hnear].
  assert (Hq : 2 ^ 52 <= q <= 2 ^ 53) by nia.
  destruct (Z.eq_dec q (2 ^ 53)) as [Hmax|Hbelow].
  - assert (Hm : Z.pos m = 2 ^ 52) by nia.
    assert (Hr0 : r = 0) by nia.
    subst q r. rewrite Hm in *.
    exists 4503599627370496%positive, (-105 - e + 1), (2 ^ 53).
    split; [|split; [|split]].
    + replace (new_location (2 ^ 52) 0) with loc_Exact
        by (vm_compute; reflexivity).
      pose proof (Binary64Facts.binary_round_aux_exact false
                    4503599627370496 1 (-105 - e)) as Hround.
      unfold canonical_mantissa, fexp, emin, Binary64.prec, Binary64.emax
        in Hround.
      replace (Z.pos (digits2_pos 4503599627370496)) with 53 in Hround
        by (vm_compute; reflexivity).
      change (Z.of_N 1) with 1 in Hround.
      replace (Z.pos (Pos.shiftl 4503599627370496 1)) with (2 ^ 53) in Hround
        by (vm_compute; reflexivity).
      apply Hround; [apply Z.eqb_eq|]; lia.
    + apply Binary64Facts.bounded_cases.
      replace (digits2_pos 4503599627370496) with 53%positive
        by (vm_compute; reflexivity).
      lia.
    + rewrite Qpower_plus by discriminate.
      replace (inject_Z (2 ^ 53)) with (inject_Z (Z.pos 4503599627370496) * 2 ^ 1)%Q
        by (vm_compute; reflexivity).
      ring.
    + replace (2 ^ 53 * 2 ^ 52 - 2 ^ 105) with 0 by (vm_compute; reflexivity).
      simpl Z.abs. lia.
  - destruct q as [|qp|]; try lia.
    assert (Hdq : Z.pos (digits2_pos qp) = 53)
      by (apply digits2_pos_unique; [lia|]; change (2 ^ (53 - 1)) with (2 ^ 52); lia).
    destruct (binary_round_aux_normal qp (-105 - e)
                (new_location (Z.pos m) r) Hdq ltac:(lia))
      as (m' & e' & Hround & Hb & Hval).
    exists m', e', (round_nearest_even (Z.pos qp) (new_location (Z.pos m) r)).
    split; [exact Hround|]. split; [exact Hb|]. split; [exact Hval|].
    replace (2 ^ 105) with (Z.pos qp * Z.pos m + r) by lia.
    exact Hnear.
Qed.
End Reciprocal.

Lemma this_mag (m : positive) (e : Z) :
  (this (Binary64.mag m e) == inject_Z (Z.pos m) * 2 ^ e)%Q.
Proof. apply Qred_correct. Qed.

(** A double in the range of the widgets is normal. *)
Lemma in_range_normal (m : positive) (e : Z) :
  bounded Binary64.prec Binary64.emax m e = true ->
  Script.in_range (Binary64.mag m e) ->
  (Z.pos (digits2_pos m) = 53 /\ -1074 <= e <= 969)%Z.
Proof.
  intros Hb [Hlo Hhi].
  apply Binary64Facts.bounded_cases in Hb as (Hmax & Hd & Hcanon).
  pose proof (Binary64Facts.mantissa_below m Hd) as Hm.
  assert (H1 : Binary64.mag 1 (-4) < Binary64.mag m e)
    by (eapply Qclt_le_trans; [|exact Hlo]; reflexivity).
  assert (H2 : Binary64.mag m e < Binary64.mag 1 4)
    by (eapply Qcle_lt_trans; [exact Hhi|]; reflexivity).
  assert (He1 : (-57 < e)%Z).
  { destruct (Z_lt_le_dec (-57) e) as [|Hle]; [assumption|exfalso].
    apply (Binary64Facts.mag_lt_iff 1 m (-4) e e) in H1; [|lia|lia].
    rewrite Z.sub_diag in H1.
    assert (2 ^ 53 <= 2 ^ (-4 - e))%Z by (apply Z.pow_le_mono_r; lia).
    lia. }
  assert (He2 : (e < 4)%Z).
  { destruct (Z_lt_le_dec e 4) as [|Hle]; [assumption|exfalso].
    apply (Binary64Facts.mag_lt_iff m 1 e 4 4) in H2; [|lia|lia].
    rewrite Z.sub_diag in H2.
    assert (2 ^ 0 <= 2 ^ (e - 4))%Z by (apply Z.pow_le_mono_r; lia).
    change (2 ^ 0)%Z with 1%Z in *. nia. }
  lia.
Qed.

(** The rounded reciprocal times the double is within [2^-53] of one. *)
Lemma video_scale_error (m m' : positive) (e e' n : Z) :
  (Z.pos m < 2 ^ 53)%Z ->
  (inject_Z (Z.pos m') * 2 ^ e' == inject_Z n * 2 ^ (-105 - e))%Q ->
  (2 * Z.abs (n * Z.pos m - 2 ^ 105) <= Z.pos m)%Z ->
  [Binary64.mag m' e' * Binary64.mag m e - 1] <= Binary64.unit_roundoff.
Proof.
  intros Hm Hval Hnear.
  set (d := (n * Z.pos m - 2 ^ 105)%Z) in *.
  assert (Hprod : (this (Binary64.mag m' e' * Binary64.mag m e - 1)
                   == inject_Z d * (1 # 40564819207303340847894502572032))%Q).
  { rewrite this_minus, this_mult, !this_mag, Hval.
    transitivity (inject_Z (n * Z.pos m) * (2 ^ (-105 - e) * 2 ^ e) - 1)%Q;
      [rewrite inject_Z_mult; change (this 1) with 1%Q; ring|].
    rewrite <- Qpower_plus by discriminate.
    replace (-105 - e + e)%Z with (-105)%Z by lia.
    replace (n * Z.pos m)%Z with (d + 2 ^ 105)%Z by (subst d; lia).
    rewrite inject_Z_plus.
    change (2 ^ (-105))%Q with (1 # 40564819207303340847894502572032)%Q.
    change (inject_Z (2 ^ 105))
      with (40564819207303340847894502572032 # 1)%Q.
    set (D := inject_Z d). clearbody D. clear. lra. }
  assert (Hd : (- 2 ^ 52 <= d <= 2 ^ 52)%Z) by lia.
  destruct Hd as [Hd1 Hd2].
  rewrite Zle_Qle in Hd1, Hd2.
  change (inject_Z (- 2 ^ 52)) with (-4503599627370496 # 1)%Q in Hd1.
  change (inject_Z (2 ^ 52)) with (4503599627370496 # 1)%Q in Hd2.
  apply Qcabs_Qcle_condition. unfold Qcle.
  rewrite this_opp, Hprod.
  change (this Binary64.unit_roundoff) with (1 # 9007199254740992)%Q.
  set (D := inject_Z d) in *. clearbody D. clear - Hd1 Hd2. split; lra.
Qed.

(** X4.  Audio and video stay in step, up to one rounding.  For a speed
    factor in the range of the widgets, given as the double [x], the
    command gives to [-af] the string the function returns for [x] and to
    [-vf] the text of a positive finite double, the rounded quotient
    [1/x]; the value of that double times the product of the values of
    the stages of the chain differs from one by at most [2^-53]. *)
Theorem ffmpeg_cmd_in_step (str64 : spec_float -> string)
    (input_path output_path : string) (x : spec_float) (q : Qc) :
  Binary64.represents x q -> Script.in_range q ->
  exists filters chain values scale v,
    returns str64 x filters /\
    chain_of x chain /\ Forall2 Binary64.represents chain values /\
    nth_error (Script.ffmpeg_cmd str64 input_path output_path x filters) 6
    = Some filters /\
    nth_error (Script.ffmpeg_cmd str64 input_path output_path x filters) 4
    = Some ("setpts=" ++ str64 scale ++ "*PTS")%string /\
    Binary64.represents scale v /\
    [v * chain_product values - 1] <= Binary64.unit_roundoff.
Proof.
  intros Hx Hrange.
  pose proof (Binary64Facts.represents_pos x q Hx) as Hpos.
  destruct (tempo_chain_shape q Hpos) as (k1 & k2 & rest & Hsplit & fuel & Hrun).
  pose proof (Binary64Facts.tempo_chain_binary64 x q fuel Hx) as Hsim.
  rewrite Hrun in Hsim.
  destruct (tempo_chain fuel x) as [chain|] eqn:Hrun64; [|contradiction].
  pose proof (Binary64Facts.build_sim (fun (_ : string) (_ : Qc) => True)
                "atempo=2.0"%string "atempo=0.5"%string 2.0 0.5
                (stage_token str64) (fun m => m) I I
                (fun _ _ _ => I) fuel x q Hx) as Hstr.
  unfold tempo_chain in Hrun.
  change (@two Qc exact) with 2.0 in Hrun.
  change (@half Qc exact) with 0.5 in Hrun.
  rewrite Hrun in Hstr.
  destruct (build _ _ (stage_token str64) fuel x) as [tempos|] eqn:Hbuild;
    [|contradiction].
  destruct Hx as (m & e & -> & Hb & ->).
  destruct (in_range_normal m e Hb Hrange) as [Hd He].
  destruct (video_scale_nearest m e Hd He)
    as (m' & e' & n & Hscale & Hb' & Hval & Hnear).
  exists (String.concat "," tempos), chain. eexists.
  exists (Script.video_scale (S754_finite false m e)), (Binary64.mag m' e').
  split; [exists fuel; unfold atempo_chain; now rewrite Hbuild|].
  split; [now exists fuel|].
  split; [exact Hsim|].
  split; [reflexivity|]. split; [reflexivity|].
  split; [now exists m', e'|].
  rewrite (greedy_product _ _ _ _ Hsplit).
  apply (video_scale_error m m' e e' n); try assumption.
  apply Binary64Facts.mantissa_below. lia.
Qed.

Lemma ffmpeg_cmd_in_step_witness :
  Binary64.represents (Binary64.of_ratio 3 1)
    (Binary64.mag 6755399441055744 (-51)) /\
  Script.in_range (Binary64.mag 6755399441055744 (-51)) /\
  exists filters chain values scale v,
    returns (fun x => decimal_str (double_value x))
      (Binary64.of_ratio 3 1) filters /\
    chain_of (Binary64.of_ratio 3 1) chain /\
    Forall2 Binary64.represents chain values /\
    nth_error (Script.ffmpeg_cmd (fun x => decimal_str (double_value x))
                 "in.mp4" "out.mp4" (Binary64.of_ratio 3 1) filters) 6
    = Some filters /\
    nth_error (Script.ffmpeg_cmd (fun x => decimal_str (double_value x))
                 "in.mp4" "out.mp4" (Binary64.of_ratio 3 1) filters) 4
    = Some ("setpts=" ++ decimal_str (double_value scale) ++ "*PTS")%string /\
    Binary64.represents scale v /\
    [v * chain_product values - 1] <= Binary64.unit_roundoff.
Proof.
  assert (H3 : Binary64.represents (Binary64.of_ratio 3 1)
                 (Binary64.mag 6755399441055744 (-51))).
  { exists 6755399441055744%positive, (-51)%Z.
    split; [vm_compute; reflexivity|]. split; [vm_compute; reflexivity|].
    reflexivity. }
  assert (Hrange : Script.in_range (Binary64.mag 6755399441055744 (-51)))
    by (split; vm_compute; discriminate).
  split; [exact H3|]. split; [exact Hrange|].
  exact (ffmpeg_cmd_in_step (fun x => decimal_str (double_value x))
           "in.mp4" "out.mp4" (Binary64.of_ratio 3 1)
           (Binary64.mag 6755399441055744 (-51)) H3 Hrange).
Defined.

(** The product need not be one: for the speed factor [3.0] the quotient
    is the double nearest to a third, and that double times the chain
    [2.0, 1.5] is [1 - 2^-54]. *)
Example video_scale_three :
  Script.video_scale (Binary64.of_ratio 3 1)
  = S754_finite false 6004799503160661 (-54) /\
  tempo_chain 1 (Binary64.of_ratio 3 1)
  = Some [Binary64.two; Binary64.of_ratio 3 2] /\
  Binary64.mag 6004799503160661 (-54) * chain_product [2.0; Q2Qc (3 # 2)]
  = 1 - Q2Qc (1 # 18014398509481984).
Proof.
  split; [vm_compute; reflexivity|]. split; [vm_compute; reflexivity|].
  apply Qc_is_canon. vm_compute. reflexivity.
Qed.

(** ** The speed tag of the output file name *)

Lemma rstrip_cons_ne (c a : ascii) (s : string) :
  a <> c -> Script.rstrip c (String a s) = String a (Script.rstrip c s).
Proof.
  intros Hne. simpl. destruct (Script.rstrip c s); [|reflexivity].
  apply Ascii.eqb_neq in Hne. now rewrite Hne.
Qed.

Lemma rstrip_app_kept (c : ascii) (a b : string) :
  Script.rstrip c b <> EmptyString ->
  Script.rstrip c (a ++ b) = (a ++ Script.rstrip c b)%string.
Proof.
  intros Hb. induction a as [|x a IH]; [reflexivity|].
  simpl. rewrite IH.
  destruct (a ++ Script.rstrip c b)%string eqn:Happ; [|reflexivity].
  destruct a; simpl in Happ; [contradiction|discriminate].
Qed.

Lemma rstrip_app_gone (c : ascii) (a b : string) :
  Script.rstrip c b = EmptyString ->
  Script.rstrip c (a ++ b) = Script.rstrip c a.
Proof.
  intros Hb. induction a as [|x a IH]; [assumption|].
  simpl. now rewrite IH.
Qed.

(** The digits of a number hold no decimal point. *)
Lemma rstrip_point_uint (d : Decimal.uint) :
  Script.rstrip "." (NilEmpty.string_of_uint d) = NilEmpty.string_of_uint d.
Proof.
  induction d; simpl NilEmpty.string_of_uint; [reflexivity|..];
    (rewrite rstrip_cons_ne by discriminate; now rewrite IHd).
Qed.

Lemma rstrip_point_whole (x : Qc) :
  Script.rstrip "." (Script.whole_text x) = Script.whole_text x /\
  Script.whole_text x <> EmptyString.
Proof.
  unfold Script.whole_text.
  set (d := N.to_uint _).
  assert (Hd : Script.rstrip "." (NilZero.string_of_uint d)
               = NilZero.string_of_uint d
               /\ NilZero.string_of_uint d <> EmptyString).
  { destruct d; try (split; [apply (rstrip_point_uint (_ d))|discriminate]).
    split; [reflexivity|discriminate]. }
  destruct Hd as [Hstrip Hne].
  destruct (Qclt_le_dec x 0); [|now split].
  split.
  - rewrite rstrip_app_kept; now rewrite Hstrip.
  - discriminate.
Qed.

Lemma digit_char_cases (d : Z) :
  (0 <= d <= 9)%Z ->
  digit_char d <> "."%char /\
  (digit_char d = "0"%char <-> d = 0%Z).
Proof.
  intros Hd.
  assert (H : (d = 0 \/ d = 1 \/ d = 2 \/ d = 3 \/ d = 4 \/ d = 5 \/ d = 6
              \/ d = 7 \/ d = 8 \/ d = 9)%Z) by lia.
  repeat (destruct H as [-> | H]); try subst d;
    (split; [discriminate|split; [try discriminate; reflexivity|]]);
    try reflexivity; discriminate.
Qed.

Lemma rstrip_tail_kept (c a : ascii) (s : string) :
  a <> c ->
  Script.rstrip c (s ++ String a EmptyString) = (s ++ String a EmptyString)%string.
Proof.
  intros Hne.
  assert (Hlast : Script.rstrip c (String a EmptyString) = String a EmptyString)
    by now rewrite rstrip_cons_ne.
  rewrite rstrip_app_kept; rewrite Hlast; [reflexivity|discriminate].
Qed.

Lemma strip_two (W : string) (t h : ascii) :
  Script.rstrip "." W = W -> W <> EmptyString ->
  t <> "."%char -> h <> "."%char ->
  Script.rstrip "." (Script.rstrip "0"
    (W ++ "." ++ String t (String h EmptyString)))
  = if Ascii.eqb h "0"
    then if Ascii.eqb t "0" then W
         else (W ++ "." ++ String t EmptyString)%string
    else (W ++ "." ++ String t (String h EmptyString))%string.
Proof.
  intros HW Hne Ht Hh.
  assert (Hpoint : forall r,
    Script.rstrip "0" ("." ++ r) = ("." ++ Script.rstrip "0" r)%string)
    by (intros r; now apply rstrip_cons_ne).
  rewrite rstrip_app_kept by (rewrite Hpoint; discriminate).
  rewrite Hpoint.
  destruct (Ascii.eqb h "0") eqn:Eh.
  - apply Ascii.eqb_eq in Eh. subst h.
    destruct (Ascii.eqb t "0") eqn:Et.
    + apply Ascii.eqb_eq in Et. subst t.
      change (Script.rstrip "0" "00") with EmptyString.
      rewrite rstrip_app_gone by reflexivity. exact HW.
    + assert (Hstrip : Script.rstrip "0" (String t "0") = String t EmptyString)
        by (simpl; now rewrite Et).
      rewrite Hstrip.
      rewrite rstrip_app_kept;
        rewrite (rstrip_tail_kept "." t "." Ht);
        [reflexivity|discriminate].
  - assert (Hstrip : Script.rstrip "0" (String t (String h EmptyString))
                     = String t (String h EmptyString))
      by (simpl; now rewrite Eh).
    rewrite Hstrip.
    assert (Hkept : Script.rstrip "." ("." ++ String t (String h EmptyString))
                    = ("." ++ String t (String h EmptyString))%string)
      by exact (rstrip_tail_kept "." h (String "." (String t EmptyString)) Hh).
    rewrite rstrip_app_kept; rewrite Hkept; [reflexivity|discriminate].
Qed.

Lemma round_half_even_nonneg (q : Q) : (0 <= q)%Q -> (0 <= Script.round_half_even q)%Z.
Proof.
  intros Hq. unfold Script.round_half_even.
  assert (Hn : (0 <= Qnum q)%Z) by (unfold Qle in Hq; simpl in Hq; lia).
  assert (Hf : (0 <= Qnum q / Z.pos (Qden q))%Z) by (apply Z.div_pos; lia).
  destruct (2 * (Qnum q mod Z.pos (Qden q)) ?= Z.pos (Qden q))%Z;
    [destruct (Z.even _)|..]; lia.
Qed.

Lemma hundredths_nonneg (x : Qc) : (0 <= Script.hundredths x)%Z.
Proof.
  apply round_half_even_nonneg.
  apply Qmult_le_0_compat; [|discriminate].
  exact (Qcabs_nonneg x).
Qed.

(** X5.  The speed tag of the file name is the two-decimal text of the
    speed factor without its trailing zeros and without a trailing
    point, and the digits before the point are never touched: the
    integer part alone when the hundredths are a whole number, one
    decimal when they are a whole number of tenths, both decimals
    otherwise. *)
Theorem safe_speed_str_cases (x : Qc) :
  let h := Script.hundredths x in
  ((h mod 100 = 0)%Z -> Script.safe_speed_str x = Script.whole_text x) /\
  ((h mod 100 <> 0)%Z -> (h mod 10 = 0)%Z ->
   Script.safe_speed_str x
   = (Script.whole_text x ++ "." ++ String (Script.tenths_digit x) EmptyString)%string) /\
  ((h mod 10 <> 0)%Z -> Script.safe_speed_str x = Script.format_2f x).
Proof.
  intros h. pose proof (hundredths_nonneg x) as Hh. fold h in Hh.
  destruct (rstrip_point_whole x) as [HW Hne].
  pose proof (Z.div_mod (h mod 100) 10 ltac:(lia)) as D1.
  pose proof (Z.div_mod h 100 ltac:(lia)) as D2.
  pose proof (Z.div_mod h 10 ltac:(lia)) as D3.
  pose proof (Z.mod_pos_bound h 100 ltac:(lia)) as B1.
  pose proof (Z.mod_pos_bound h 10 ltac:(lia)) as B2.
  pose proof (Z.mod_pos_bound (h mod 100) 10 ltac:(lia)) as B3.
  assert (Ht : (0 <= h mod 100 / 10 <= 9)%Z) by lia.
  assert (Hu : (0 <= h mod 10 <= 9)%Z) by lia.
  destruct (digit_char_cases _ Ht) as [Htp Ht0].
  destruct (digit_char_cases _ Hu) as [Hup Hu0].
  assert (Hstrip := strip_two (Script.whole_text x) (digit_char (h mod 100 / 10))
                      (digit_char (h mod 10)) HW Hne Htp Hup).
  change (digit_char (h mod 100 / 10)) with (Script.tenths_digit x) in Hstrip.
  change (digit_char (h mod 10)) with (Script.hundredths_digit x) in Hstrip.
  fold (Script.format_2f x) in Hstrip. fold (Script.safe_speed_str x) in Hstrip.
  assert (Hmod : (h mod 100 = 10 * (h mod 100 / 10) + h mod 10)%Z) by lia.
  change (digit_char (h mod 100 / 10)) with (Script.tenths_digit x) in Htp, Ht0.
  change (digit_char (h mod 10)) with (Script.hundredths_digit x) in Hup, Hu0.
  clearbody h. clear D1 D2 D3 B1 B2 B3.
  split; [|split].
  - intros H100. rewrite Hstrip.
    assert (E1 : Script.hundredths_digit x = "0"%char) by (apply Hu0; lia).
    assert (E2 : Script.tenths_digit x = "0"%char) by (apply Ht0; lia).
    rewrite E1, E2. reflexivity.
  - intros H100 H10. rewrite Hstrip.
    assert (E1 : Script.hundredths_digit x = "0"%char) by (apply Hu0; lia).
    rewrite E1. rewrite Ascii.eqb_refl.
    destruct (Ascii.eqb (Script.tenths_digit x) "0") eqn:E2; [|reflexivity].
    exfalso. apply Ascii.eqb_eq in E2. apply Ht0 in E2. lia.
  - intros H10. rewrite Hstrip.
    destruct (Ascii.eqb (Script.hundredths_digit x) "0") eqn:E1; [|reflexivity].
    exfalso. apply Ascii.eqb_eq in E1. apply Hu0 in E1. lia.
Qed.

Lemma length_append (a b : string) :
  String.length (a ++ b) = (String.length a + String.length b)%nat.
Proof. induction a as [|x a IH]; simpl; [reflexivity|now rewrite IH]. Qed.

(** X6.  The name of the output file is never the name of the uploaded
    file (its stem followed by its suffix), so the run of FFmpeg, which
    overwrites its output, cannot overwrite its input. *)
Theorem output_filename_fresh (base_name ext : string) (sf : Qc) :
  Script.output_filename base_name ext sf <> (base_name ++ ext)%string.
Proof.
  intros Heq. apply (f_equal String.length) in Heq.
  unfold Script.output_filename in Heq.
  rewrite !length_append in Heq. simpl in Heq. lia.
Qed.

(** ** Doubles outside the contract *)

Lemma iter_pos_keeps {A : Type} (P : A -> Prop) (f : A -> A) :
  (forall a, P a -> P (f a)) ->
  forall p a, P a -> P (iter_pos f p a).
Proof.
  intros Hf. induction p as [p IH|p IH|]; intros a Ha; simpl; auto.
Qed.

Lemma shr_1_nonneg (mrs : shr_record) :
  (0 <= shr_m mrs)%Z -> (0 <= shr_m (shr_1 mrs))%Z.
Proof.
  destruct mrs as [m r s]. simpl.
  destruct m as [|[p|p|]|p]; simpl; lia.
Qed.

Lemma shr_fexp_nonneg (m e : Z) (l : location) :
  (0 <= m)%Z ->
  (0 <= shr_m (fst (shr_fexp Binary64.prec Binary64.emax m e l)))%Z.
Proof.
  intros Hm. unfold shr_fexp, shr.
  assert (H0 : (0 <= shr_m (shr_record_of_loc m l))%Z)
    by (destruct l as [|[| |]]; exact Hm).
  destruct (fexp _ _ _ - e)%Z; simpl fst; try assumption.
  now apply (iter_pos_keeps (fun r => (0 <= shr_m r)%Z) shr_1 shr_1_nonneg).
Qed.

Lemma round_nearest_even_nonneg (m : Z) (l : location) :
  (0 <= m)%Z -> (0 <= round_nearest_even m l)%Z.
Proof.
  intros Hm. destruct l as [|[| |]]; simpl; try lia.
  destruct (Z.even m); lia.
Qed.

(** Rounding keeps the sign: the result is a zero, a finite number or an
    infinity of the sign given. *)
Lemma binary_round_aux_sign (s : bool) (m e : Z) (l : location) :
  (0 <= m)%Z ->
  match binary_round_aux Binary64.prec Binary64.emax s m e l with
  | S754_zero s' | S754_finite s' _ _ | S754_infinity s' => s' = s
  | S754_nan => False
  end.
Proof.
  intros Hm. unfold binary_round_aux.
  pose proof (shr_fexp_nonneg m e l Hm) as H1.
  destruct (shr_fexp _ _ m e l) as [mrs' e']. simpl fst in H1.
  pose proof (round_nearest_even_nonneg _ (loc_of_shr_record mrs') H1) as H2.
  pose proof (shr_fexp_nonneg _ e' loc_Exact H2) as H3.
  destruct (shr_fexp _ _ _ e' loc_Exact) as [mrs'' e'']. simpl fst in H3.
  destruct (shr_m mrs'') as [|p|p]; [reflexivity| |lia].
  now destruct (e'' <=? _)%Z.
Qed.

(** Doubling a double that is no speed factor gives another one. *)
Lemma mul_two_no_speed_factor (x : spec_float) :
  no_speed_factor x -> x <> S754_infinity false ->
  no_speed_factor (mul x two) /\ mul x two <> S754_infinity false.
Proof.
  destruct x as [s|[|]|  |[|] m e]; try contradiction; intros _ Hinf;
    try (now split); try congruence.
  cbn [mul two binary64]. unfold SFmul, Binary64.two. cbn [xorb].
  pose proof (binary_round_aux_sign true
                (Z.pos (m * 4503599627370496)) (e + -51) loc_Exact
                ltac:(lia)) as Hsign.
  destruct (binary_round_aux _ _ _ _ _ _) as [s'|s'| |s' m' e'];
    try contradiction; subst s'; split; try exact I; discriminate.
Qed.

Lemma spec_float_infinity_dec (x : spec_float) :
  {x = S754_infinity false} + {x <> S754_infinity false}.
Proof.
  destruct x as [s|[|]| |s m e]; (now left) || (right; discriminate).
Qed.

Section NoSpeedFactor.
Context {T : Type}.
Variables (stage_two stage_half : T).

Lemma speed_up_no_speed_factor (x : spec_float) (fuel : nat) (tempos : list T) :
  no_speed_factor x -> x <> S754_infinity false ->
  speed_up stage_two fuel tempos x = Some (tempos, x).
Proof.
  intros Hx Hinf.
  assert (Hgt : gtb x two = false).
  { destruct x as [s|[|]| |[|] m e]; try contradiction; try reflexivity;
      congruence. }
  destruct fuel; cbn [speed_up]; now rewrite Hgt.
Qed.

Lemma slow_down_no_speed_factor (fuel : nat) : forall (x : spec_float) tempos,
  no_speed_factor x -> x <> S754_infinity false ->
  slow_down stage_half fuel tempos x = None.
Proof.
  induction fuel as [|fuel IH]; intros x tempos Hx Hinf;
    assert (Hlt : ltb x half = true)
      by (destruct x as [s|[|]| |[|] m e]; try contradiction;
          try reflexivity; congruence);
    cbn [slow_down]; rewrite Hlt; [reflexivity|].
  destruct (mul_two_no_speed_factor x Hx Hinf). now apply IH.
Qed.

Lemma speed_up_infinity (fuel : nat) : forall tempos,
  speed_up stage_two fuel tempos (S754_infinity false) = None.
Proof.
  induction fuel as [|fuel IH]; intros tempos; [reflexivity|].
  cbn [speed_up]. change (gtb (S754_infinity false) two) with true.
  cbv iota. apply IH.
Qed.

Lemma build_no_speed_factor (stage_rest : spec_float -> T)
    (x : spec_float) (fuel : nat) :
  no_speed_factor x -> build stage_two stage_half stage_rest fuel x = None.
Proof.
  intros Hx. unfold build.
  destruct (spec_float_infinity_dec x) as [->|Hinf].
  - now rewrite speed_up_infinity.
  - rewrite speed_up_no_speed_factor by assumption.
    now rewrite slow_down_no_speed_factor.
Qed.
End NoSpeedFactor.

(** X9.  On IEEE doubles the call returns exactly for the positive
    finite doubles and for NaN (where neither loop test holds and the
    chain is the single stage NaN); on zero, on a negative double and on
    an infinity a loop runs for ever. *)
Theorem binary64_returns_iff (str64 : spec_float -> string) (x : spec_float) :
  valid_binary Binary64.prec Binary64.emax x = true ->
  ((exists out, returns str64 x out) <->
   (exists q, Binary64.represents x q) \/ x = S754_nan).
Proof.
  intros Hvalid. split.
  - intros (out & fuel & Hrun). unfold atempo_chain in Hrun.
    destruct x as [s|s| |[|] m e]; try (now right);
      try (rewrite build_no_speed_factor in Hrun by exact I; discriminate).
    left. exists (Binary64.mag m e), m, e. now repeat split.
  - intros [[q Hx]| ->].
    + destruct (tempo_chain_shape q (Binary64Facts.represents_pos x q Hx))
        as (k1 & k2 & rest & _ & fuel & Hrun).
      pose proof (Binary64Facts.build_sim (fun (_ : string) (_ : Qc) => True)
                    "atempo=2.0"%string "atempo=0.5"%string 2.0 0.5
                    (stage_token str64) (fun m => m) I I
                    (fun _ _ _ => I) fuel x q Hx) as Hsim.
      unfold tempo_chain in Hrun.
      change (@two Qc exact) with 2.0 in Hrun.
      change (@half Qc exact) with 0.5 in Hrun.
      rewrite Hrun in Hsim.
      destruct (build _ _ (stage_token str64) fuel x) as [tempos|] eqn:Hrun64;
        [|contradiction].
      exists (String.concat "," tempos), fuel.
      unfold atempo_chain. now rewrite Hrun64.
    + exists ("atempo=" ++ str64 S754_nan)%string, O. reflexivity.
Qed.

Lemma binary64_returns_iff_witness :
  valid_binary Binary64.prec Binary64.emax (Binary64.of_ratio 3 1) = true /\
  ((exists out, returns (fun x => decimal_str (double_value x))
                  (Binary64.of_ratio 3 1) out) <->
   (exists q, Binary64.represents (Binary64.of_ratio 3 1) q)
   \/ Binary64.of_ratio 3 1 = S754_nan).
Proof.
  split; [vm_compute; reflexivity|].
  apply (binary64_returns_iff (fun x => decimal_str (double_value x))
           (Binary64.of_ratio 3 1)).
  vm_compute. reflexivity.
Defined.

Lemma represents_tenth :
  Binary64.represents (Binary64.of_ratio 1 10)
    (Binary64.mag 7205759403792794 (-56)).
Proof.
  exists 7205759403792794%positive, (-56)%Z.
  split; [vm_compute; reflexivity|]. split; [vm_compute; reflexivity|].
  reflexivity.
Defined.

Lemma chain_of_binary64_witness :
  Binary64.represents (Binary64.of_ratio 1 10)
    (Binary64.mag 7205759403792794 (-56)) /\
  exists c c',
    chain_of (Binary64.of_ratio 1 10) c /\
    chain_of (Binary64.mag 7205759403792794 (-56)) c' /\
    Forall2 Binary64.represents c c' /\
    Forall in_band c' /\
    chain_product c' = Binary64.mag 7205759403792794 (-56).
Proof.
  split; [exact represents_tenth|].
  exact (Binary64Facts.chain_of_binary64 _ _ represents_tenth).
Defined.

Lemma atempo_chain_binary64_witness :
  (forall x q, Binary64.represents x q ->
     decimal_str (double_value x) = decimal_str q) /\
  Binary64.represents (Binary64.of_ratio 1 10)
    (Binary64.mag 7205759403792794 (-56)) /\
  atempo_chain (fun x => decimal_str (double_value x)) 3
    (Binary64.of_ratio 1 10)
  = atempo_chain decimal_str 3 (Binary64.mag 7205759403792794 (-56)).
Proof.
  assert (Hstr : forall x q, Binary64.represents x q ->
            decimal_str (double_value x) = decimal_str q)
    by (intros x q (m & e & -> & _ & ->); reflexivity).
  split; [exact Hstr|]. split; [exact represents_tenth|].
  exact (Binary64Facts.atempo_chain_binary64 _ _ _ _ 3 Hstr represents_tenth).
Defined.
